(** * ProjectSauron: the sliding-window rate limiter and the ingestion loop

    A shallow embedding of [src/main.py]: the class [RateLimiter] with its
    method [wait_if_needed], and the class [TwitterScraper] with
    [fetch_tweet_details], [fetch_user_tweets] and the top-level [main].

    Conventions of the embedding:
    - wall-clock instants ([time.time()]) and durations are integers counting
      clock ticks; [window_size] is expressed in the same unit;
    - the remote client, the document store, the clock and [asyncio.sleep]
      are collaborators: functions on an abstract environment, threaded
      through a state-and-exception monad;
    - every call to a collaborator and every limiter acquisition is appended
      to a trace, over which the properties of the pipeline are stated. *)

From Stdlib Require Import ZArith List Bool String Lia Sorted.
Import ListNotations.
Local Open Scope Z_scope.

(** ** RateLimiter *)

Module RateLimiter.

(** [RateLimiter.__init__]: the three attributes of an instance. *)
Record t : Type := mk {
  requests_per_window : Z;
  window_size : Z;
  requests : list Z
}.

Definition init (requests_per_window : Z) (window_size : Z) : t :=
  mk requests_per_window window_size [].

Definition set_requests (self : t) (rs : list Z) : t :=
  mk (requests_per_window self) (window_size self) rs.

(** What one call of [wait_if_needed] does besides updating [requests]:
    it returns, after having awaited [asyncio.sleep d] when [slept = Some d],
    or it raises [IndexError] at [self.requests[0]]. *)
Inductive outcome : Type :=
| Returned (slept : option Z)
| RaisedIndexError.

(** The list comprehension of lines 31-32. *)
Definition prune (window_size now : Z) (rs : list Z) : list Z :=
  filter (fun req_time => now - req_time <? window_size) rs.

(** [wait_if_needed], lines 26-42, as a function of the instance and of the
    value [now] read from [time.time()] on entry.  [now] is read once: the
    value appended on line 42 is the one read on line 28. *)
Definition wait_if_needed (self : t) (now : Z) : t * outcome :=
  let rs := prune (window_size self) now (requests self) in
  if requests_per_window self <=? Z.of_nat (List.length rs) then
    match rs with
    | [] => (set_requests self rs, RaisedIndexError)
    | oldest :: rest =>
        let sleep_time := window_size self - (now - oldest) in
        (set_requests self (rest ++ [now]),
         Returned (if 0 <? sleep_time then Some sleep_time else None))
    end
  else (set_requests self (rs ++ [now]), Returned None).

(** The state in which a call is suspended: line 39 runs after the
    assignment of lines 31-32 and before the one of line 40. *)
Definition suspended (self : t) (now : Z) : t :=
  set_requests self (prune (window_size self) now (requests self)).

(** Time spent inside a call. *)
Definition duration (o : outcome) : Z :=
  match o with
  | Returned (Some d) => d
  | _ => 0
  end.

(** The timestamp a call appends, if it appends one. *)
Definition recorded (now : Z) (o : outcome) : list Z :=
  match o with
  | Returned _ => [now]
  | RaisedIndexError => []
  end.

(** A run of the limiter: the calls are made one after the other, call [i]
    reading [now_i] on entry.  [history] collects every timestamp ever
    appended, [clock] is the earliest instant at which the last call can
    have finished. *)
Record run_state : Type := mk_run {
  limiter : t;
  history : list Z;
  clock : Z
}.

Definition call (st : run_state) (now : Z) : run_state :=
  let '(self', o) := wait_if_needed (limiter st) now in
  mk_run self' (history st ++ recorded now o) (now + duration o).

Definition run (st : run_state) (nows : list Z) : run_state :=
  fold_left call nows st.

Definition start (requests_per_window window_size t0 : Z) : run_state :=
  mk_run (init requests_per_window window_size) [] t0.

(** A schedule is sequential when no call starts before the previous one
    has finished, suspension included. *)
Fixpoint sequential (st : run_state) (nows : list Z) : bool :=
  match nows with
  | [] => true
  | now :: rest => (clock st <=? now) && sequential (call st now) rest
  end.

(** The instants at which the calls of a run end. *)
Fixpoint completions (st : run_state) (nows : list Z) : list Z :=
  match nows with
  | [] => []
  | now :: rest => clock (call st now) :: completions (call st now) rest
  end.

(** Number of timestamps of [rs] lying in the trailing window at instant
    [t], with the test of line 32. *)
Definition in_window (window_size t : Z) (rs : list Z) : Z :=
  Z.of_nat (List.length (prune window_size t rs)).

(** Invariant of a sequential run with limit [L] and window [W]. *)
Record run_inv (L W : Z) (st : run_state) : Prop := {
  inv_limit : requests_per_window (limiter st) = L;
  inv_window : window_size (limiter st) = W;
  inv_length : Z.of_nat (List.length (requests (limiter st))) <= L;
  inv_past : Forall (fun r => r <= clock st) (requests (limiter st));
  inv_history : forall t, clock st <= t ->
    prune W t (history st) = prune W t (requests (limiter st))
}.

End RateLimiter.

(** ** Collaborators of TwitterScraper *)

(** Exceptions.  [IndexError] is the one [wait_if_needed] can raise; every
    failure of the remote client, of the store or of the cookie file is a
    [CollaboratorError].  All of them are instances of [Exception]. *)
Inductive exn : Type :=
| IndexError
| CollaboratorError (message : string).

(** The continuation token of a page is opaque. *)
Definition Cursor : Type := string.

Record User : Type := mkUser {
  user_id : Z;
  user_name : string;
  user_screen_name : string;
  user_followers_count : Z;
  user_following_count : Z;
  user_verified : bool
}.

(** A tweet as the client returns it.  The attributes that
    [fetch_tweet_details] copies one by one, other than [id] and [user], are
    kept together in [tweet_attrs]. *)
Record Tweet : Type := mkTweet {
  tweet_id : Z;
  tweet_attrs : list (string * string);
  tweet_user : option User
}.

(** The value of [get_user_tweets].  [next_cursor = None] when the object has
    no attribute [next_cursor] ([hasattr] is false); otherwise it holds the
    value of the attribute, which may itself be [None]. *)
Record Page : Type := mkPage {
  items : list Tweet;
  next_cursor : option (option Cursor)
}.

(** The dictionary built by [fetch_tweet_details]; the key ['tweet_type'] is
    added by the caller. *)
Record TweetData : Type := mkTweetData {
  data_id : Z;
  data_attrs : list (string * string);
  data_scraped_at : Z;
  data_user : option User;
  data_tweet_type : option string
}.

(** The outside world as the scraper sees it: the wall clock, the event loop,
    the remote client ([twikit]) and the store ([pymongo]).  A call that can
    fail returns the exception on the left. *)
Class Collaborators (Env : Type) : Type := {
  time_time : Env -> Z;
  asyncio_sleep : Z -> Env -> Env;
  utcnow : Env -> Z;
  load_cookies_file : string -> Env -> (exn + unit) * Env;
  get_user_by_screen_name : string -> Env -> (exn + User) * Env;
  get_user_tweets :
    Z -> string -> Z -> option Cursor -> Env -> (exn + Page) * Env;
  update_one : string -> Z -> TweetData -> Env -> (exn + unit) * Env
}.

(** What the scraper does that is visible from outside, in order. *)
Inductive event : Type :=
| Acquire (o : RateLimiter.outcome)
| LoadCookies (cookie_file : string) (failed : option exn)
| GetUser (screen_name : string) (failed : option exn)
| GetUserTweets (user : Z) (tweet_type : string) (count : Z)
    (cursor : option Cursor) (failed : option exn)
| UpdateOne (collection : string) (id : Z) (data : TweetData)
    (failed : option exn)
| LogFetching (screen_name : string)
| LogFetched (tweets_fetched : Z) (tweet_type : string) (screen_name : string)
| LogErrorFetching (screen_name : string) (e : exn)
| LogErrorMain (e : exn)
| Close.

(** The exception an event stands for, if the call it records raised. *)
Definition failure (ev : event) : option exn :=
  match ev with
  | Acquire RateLimiter.RaisedIndexError => Some IndexError
  | LoadCookies _ failed => failed
  | GetUser _ failed => failed
  | GetUserTweets _ _ _ _ failed => failed
  | UpdateOne _ _ _ failed => failed
  | _ => None
  end.

Definition is_acquire (ev : event) : bool :=
  match ev with Acquire _ => true | _ => false end.

(** Number of limiter acquisitions in a trace. *)
Definition acquisitions (evs : list event) : Z :=
  Z.of_nat (List.length (filter is_acquire evs)).

(** Page sizes requested, in order. *)
Fixpoint page_requests (evs : list event) : list Z :=
  match evs with
  | [] => []
  | GetUserTweets _ _ count _ _ :: rest => count :: page_requests rest
  | _ :: rest => page_requests rest
  end.

(** Identifiers of the items handed to the store, in order. *)
Fixpoint upserts (evs : list event) : list Z :=
  match evs with
  | [] => []
  | UpdateOne _ id _ _ :: rest => id :: upserts rest
  | _ :: rest => upserts rest
  end.

(** Counts written by the "Fetched ..." log lines, in order. *)
Fixpoint logged_counts (evs : list event) : list Z :=
  match evs with
  | [] => []
  | LogFetched n _ _ :: rest => n :: logged_counts rest
  | _ :: rest => logged_counts rest
  end.

(** Screen names passed to [get_user_by_screen_name], in order. *)
Fixpoint subjects (evs : list event) : list string :=
  match evs with
  | [] => []
  | GetUser screen_name _ :: rest => screen_name :: subjects rest
  | _ :: rest => subjects rest
  end.

(** Each page request of a category's trace, paired with the number of items
    persisted before it when the category started with [done] of them. *)
Fixpoint requests_with_progress (done : Z) (evs : list event) : list (Z * Z) :=
  match evs with
  | [] => []
  | GetUserTweets _ _ count _ _ :: rest =>
      (count, done) :: requests_with_progress done rest
  | UpdateOne _ _ _ _ :: rest => requests_with_progress (done + 1) rest
  | _ :: rest => requests_with_progress done rest
  end.

Definition ceil_div (a b : Z) : Z := (a + b - 1) / b.

(** A page request asks for what is left of the budget, 20 items at most. *)
Definition page_size_ok (budget : Z) (request : Z * Z) : Prop :=
  fst request = Z.min 20 (budget - snd request).

(** ** The state-and-exception monad of the scraper *)

(** How a computation ends.  [OutOfFuel] belongs to the embedding only: it is
    what the [while] loop yields when its iteration bound is used up, and
    [fetch_user_tweets_never_out_of_fuel] shows that it never occurs. *)
Inductive result (A : Type) : Type :=
| Ok (a : A)
| Raise (e : exn)
| OutOfFuel.
Arguments Ok {A} a.
Arguments Raise {A} e.
Arguments OutOfFuel {A}.

Section Scraper.
Context {Env : Type} `{C : Collaborators Env}.

(** The part of a [TwitterScraper] instance that changes: the outside
    world and [self.rate_limiter]. *)
Record Scraper : Type := mkScraper {
  env : Env;
  rate_limiter : RateLimiter.t
}.

(** [TwitterScraper.__init__], line 50. *)
Definition TwitterScraper_init (e : Env) : Scraper :=
  mkScraper e (RateLimiter.init 300 60).

(** A computation: result, final state, events in order. *)
Definition M (A : Type) : Type := Scraper -> result A * Scraper * list event.

Definition ret {A} (a : A) : M A := fun s => (Ok a, s, []).

Definition bind {A B} (m : M A) (f : A -> M B) : M B := fun s =>
  match m s with
  | (Ok a, s1, evs1) =>
      let '(r, s2, evs2) := f a s1 in (r, s2, evs1 ++ evs2)
  | (Raise e, s1, evs1) => (Raise e, s1, evs1)
  | (OutOfFuel, s1, evs1) => (OutOfFuel, s1, evs1)
  end.

Definition raise {A} (e : exn) : M A := fun s => (Raise e, s, []).

Definition out_of_fuel {A} : M A := fun s => (OutOfFuel, s, []).

Definition log (ev : event) : M unit := fun s => (Ok tt, s, [ev]).

Definition get_env : M Env := fun s => (Ok (env s), s, []).

(** [try: m except Exception as e: handler e]. *)
Definition try_except {A} (m : M A) (handler : exn -> M A) : M A := fun s =>
  match m s with
  | (Raise e, s1, evs1) =>
      let '(r, s2, evs2) := handler e s1 in (r, s2, evs1 ++ evs2)
  | other => other
  end.

(** [try: m finally: cleanup], for a [cleanup] that does not raise. *)
Definition try_finally {A} (m : M A) (cleanup : M unit) : M A := fun s =>
  let '(r, s1, evs1) := m s in
  let '(_, s2, evs2) := cleanup s1 in (r, s2, evs1 ++ evs2).

(** A call to a collaborator, recorded with its failure if it raises. *)
Definition collaborate {A} (op : Env -> (exn + A) * Env)
    (record : option exn -> event) : M A := fun s =>
  let '(r, e') := op (env s) in
  let s' := mkScraper e' (rate_limiter s) in
  match r with
  | inr a => (Ok a, s', [record None])
  | inl e => (Raise e, s', [record (Some e)])
  end.

Local Notation "x <- m ;; k" := (bind m (fun x => k))
  (at level 61, m at next level, right associativity).
Local Notation "m ;; k" := (bind m (fun _ => k))
  (at level 61, right associativity).

(** [await self.rate_limiter.wait_if_needed()]: the clock is read, the
    limiter is updated, and the event loop sleeps when the limiter asks. *)
Definition wait_if_needed : M unit := fun s =>
  let now := time_time (env s) in
  let '(limiter', o) := RateLimiter.wait_if_needed (rate_limiter s) now in
  match o with
  | RateLimiter.Returned None =>
      (Ok tt, mkScraper (env s) limiter', [Acquire o])
  | RateLimiter.Returned (Some sleep_time) =>
      (Ok tt, mkScraper (asyncio_sleep sleep_time (env s)) limiter', [Acquire o])
  | RateLimiter.RaisedIndexError =>
      (Raise IndexError, mkScraper (env s) limiter', [Acquire o])
  end.

(** [load_cookies], lines 52-56. *)
Definition load_cookies (cookie_file : string) : M unit :=
  collaborate (load_cookies_file cookie_file) (LoadCookies cookie_file).

(** [fetch_tweet_details], lines 62-98. *)
Definition fetch_tweet_details (tweet : Tweet) : M TweetData :=
  wait_if_needed ;;
  e <- get_env ;;
  ret (mkTweetData (tweet_id tweet) (tweet_attrs tweet) (utcnow e)
         (tweet_user tweet) None).

Definition set_tweet_type (tweet_data : TweetData) (tweet_type : string) : TweetData :=
  mkTweetData (data_id tweet_data) (data_attrs tweet_data)
    (data_scraped_at tweet_data) (data_user tweet_data) (Some tweet_type).

Section Category.
Variable screen_name : string.
Variable max_tweets_per_type : Z.
Variable collection_name : string.
Variable user : User.
Variable tweet_type : string.

(** Body of the [for tweet in tweets] loop, lines 141-151; the increment
    of [tweets_fetched] is done by [for_tweets]. *)
Definition process_tweet (tweet : Tweet) : M unit :=
  tweet_data <- fetch_tweet_details tweet ;;
  let tweet_data := set_tweet_type tweet_data tweet_type in
  wait_if_needed ;;
  collaborate (update_one collection_name (data_id tweet_data) tweet_data)
    (UpdateOne collection_name (data_id tweet_data) tweet_data).

(** [for tweet in tweets: ...; tweets_fetched += 1], lines 140-151; the
    value is [tweets_fetched] after the loop. *)
Fixpoint for_tweets (tweets : list Tweet) (tweets_fetched : Z) : M Z :=
  match tweets with
  | [] => ret tweets_fetched
  | tweet :: rest =>
      process_tweet tweet ;;
      for_tweets rest (tweets_fetched + 1)
  end.

(** One iteration of the [while] loop, lines 126-159.  [None] stands for
    [break]; [Some (n, c)] for reaching the end of the body with
    [tweets_fetched = n] and [cursor = c]. *)
Definition fetch_batch (tweets_fetched : Z) (cursor : option Cursor)
    : M (option (Z * option Cursor)) :=
  wait_if_needed ;;
  let count := Z.min 20 (max_tweets_per_type - tweets_fetched) in
  tweets <- collaborate
              (get_user_tweets (user_id user) tweet_type count cursor)
              (GetUserTweets (user_id user) tweet_type count cursor) ;;
  match items tweets with
  | [] => ret None
  | _ :: _ =>
      tweets_fetched' <- for_tweets (items tweets) tweets_fetched ;;
      log (LogFetched tweets_fetched' tweet_type screen_name) ;;
      match next_cursor tweets with
      | Some cursor' => ret (Some (tweets_fetched', cursor'))
      | None => ret None
      end
  end.

(** [while tweets_fetched < max_tweets_per_type: ...], lines 125-159.
    [fuel] bounds the number of iterations. *)
Fixpoint while_fetching (fuel : nat) (tweets_fetched : Z)
    (cursor : option Cursor) : M unit :=
  if tweets_fetched <? max_tweets_per_type then
    match fuel with
    | O => out_of_fuel
    | S fuel' =>
        next <- fetch_batch tweets_fetched cursor ;;
        match next with
        | None => ret tt
        | Some (tweets_fetched', cursor') =>
            while_fetching fuel' tweets_fetched' cursor'
        end
    end
  else ret tt.

(** Body of the [for tweet_type in tweet_types] loop, lines 122-159.
    Every iteration that does not leave the loop adds at least one to
    [tweets_fetched], so [max_tweets_per_type] iterations suffice. *)
Definition fetch_category : M unit :=
  while_fetching (Z.to_nat max_tweets_per_type) 0 None.

End Category.

Fixpoint for_each {A} (xs : list A) (body : A -> M unit) : M unit :=
  match xs with
  | [] => ret tt
  | x :: rest => body x ;; for_each rest body
  end.

Definition default_tweet_types : list string :=
  ["Tweets"; "Replies"; "Media"; "Likes"]%string.

(** [fetch_user_tweets], lines 100-163. *)
Definition fetch_user_tweets (screen_name : string)
    (tweet_types : option (list string)) (max_tweets_per_type : Z)
    (collection_name : string) : M unit :=
  let tweet_types :=
    match tweet_types with
    | None => default_tweet_types
    | Some given => given
    end in
  try_except
    (wait_if_needed ;;
     user <- collaborate (get_user_by_screen_name screen_name)
               (GetUser screen_name) ;;
     log (LogFetching screen_name) ;;
     for_each tweet_types
       (fetch_category screen_name max_tweets_per_type collection_name user))
    (fun e => log (LogErrorFetching screen_name e) ;; raise e).

(** [main], lines 169-193, from the call of [load_cookies] on, for a given
    list [SCREEN_NAMES]; the scraper is the one built by
    [TwitterScraper_init]. *)
Definition main_with (SCREEN_NAMES : list string) : M unit :=
  try_finally
    (try_except
       (load_cookies "cookies.json" ;;
        for_each SCREEN_NAMES (fun screen_name =>
          fetch_user_tweets screen_name
            (Some ["Tweets"; "Replies"; "Media"; "Likes"]%string) 5 "tweets"))
       (fun e => log (LogErrorMain e)))
    (log Close).

Definition main : M unit := main_with ["DCI_Kenya"%string].

(** *** Vocabulary of the properties *)

Definition limit (s : Scraper) : Z :=
  RateLimiter.requests_per_window (rate_limiter s).

(** The state in which the call that follows a limiter acquisition runs. *)
Definition after_wait (s : Scraper) : Scraper :=
  snd (fst (wait_if_needed s)).

Definition quiet (ev : event) : Prop := failure ev = None.

(** A computation is orderly when it leaves the limit of the limiter alone
    and when its trace holds at most one failed call, the last event, which
    is then the exception it raises. *)
Definition orderly {A} (m : M A) : Prop :=
  forall s r s' evs, m s = (r, s', evs) ->
    limit s' = limit s /\
    match r with
    | Raise e =>
        exists evs0 ev,
          evs = evs0 ++ [ev] /\ Forall quiet evs0 /\ failure ev = Some e
    | _ => Forall quiet evs
    end.

Definition terminating {A} (m : M A) : Prop :=
  forall s, fst (fst (m s)) <> OutOfFuel.

(** The store accepts every upsert. *)
Definition store_never_fails : Prop :=
  forall collection id data e, fst (update_one collection id data e) = inr tt.

(** The source answers every request for 1 to 20 items with a page of
    exactly that many items that has a [next_cursor]. *)
Definition source_fills_pages : Prop :=
  forall user tweet_type count cursor e,
    0 < count <= 20 ->
    exists page e',
      get_user_tweets user tweet_type count cursor e = (inr page, e') /\
      Z.of_nat (List.length (items page)) = count /\
      next_cursor page <> None.

End Scraper.

Arguments Scraper : clear implicits.
Arguments M : clear implicits.

(** ** A scripted outside world, for running the scraper

    The environment is the clock.  Every screen name resolves to a user
    whose id is the length of the name.  A page holds [min count page_cap]
    tweets, numbered from the clock reading, and carries a continuation
    token; when [bad = Some (u, t)] the request fails for the user [u] in the
    category [t].  A page request takes one tick; the store never fails. *)
Module Scripted.

Definition tweets_from (first : Z) (n : nat) : list Tweet :=
  map (fun i => mkTweet (first + Z.of_nat i) [] None) (seq 0 n).

Definition unavailable (bad : option (Z * string)) (user : Z)
    (tweet_type : string) : bool :=
  match bad with
  | Some (u, t) => (user =? u) && String.eqb tweet_type t
  | None => false
  end.

Definition world (page_cap : Z) (bad : option (Z * string))
    : Collaborators Z := {|
  time_time := fun e => e;
  asyncio_sleep := fun d e => e + d;
  utcnow := fun e => e;
  load_cookies_file := fun _ e => (inr tt, e);
  get_user_by_screen_name := fun name e =>
    (inr (mkUser (Z.of_nat (String.length name)) name name 0 0 false), e);
  get_user_tweets := fun user tweet_type count _ e =>
    if unavailable bad user tweet_type
    then (inl (CollaboratorError "unavailable"), e)
    else (inr (mkPage (tweets_from (100 * e) (Z.to_nat (Z.min count page_cap)))
                 (Some (Some "next"%string))), e + 1);
  update_one := fun _ _ _ e => (inr tt, e)
|}.

(** A world whose pages hold [n] tweets and have no [next_cursor]. *)
Definition last_page_world (n : nat) : Collaborators Z := {|
  time_time := fun e => e;
  asyncio_sleep := fun d e => e + d;
  utcnow := fun e => e;
  load_cookies_file := fun _ e => (inr tt, e);
  get_user_by_screen_name := fun name e =>
    (inr (mkUser (Z.of_nat (String.length name)) name name 0 0 false), e);
  get_user_tweets := fun _ _ _ _ e =>
    (inr (mkPage (tweets_from (100 * e) n) None), e + 1);
  update_one := fun _ _ _ e => (inr tt, e)
|}.

Definition alice : User := mkUser 1 "A" "A" 0 0 false.

Definition down : exn := CollaboratorError "unavailable".

End Scripted.

(** ** Vocabulary of the trace properties *)

(** The calls that go to the remote client or to the store. *)
Definition is_call (ev : event) : bool :=
  match ev with
  | GetUser _ _ | GetUserTweets _ _ _ _ _ | UpdateOne _ _ _ _ => true
  | _ => false
  end.

(** Log lines, the reading of the cookie file and the closing of the store
    connection. *)
Definition is_note (ev : event) : bool :=
  match ev with
  | LoadCookies _ _ | LogFetching _ | LogFetched _ _ _
  | LogErrorFetching _ _ | LogErrorMain _ | Close => true
  | _ => false
  end.

(** Every remote or store call of the trace comes directly after a limiter
    acquisition that returned. *)
Definition guarded (evs : list event) : Prop :=
  forall pre ev post,
    evs = pre ++ ev :: post -> is_call ev = true ->
    exists pre' slept, pre = pre' ++ [Acquire (RateLimiter.Returned slept)].

(** An upsert goes to [collection], is keyed by the ['id'] of the record it
    writes, and the record carries one of [tweet_types] under ['tweet_type']. *)
Definition stored_as (collection : string) (tweet_types : list string)
    (ev : event) : Prop :=
  match ev with
  | UpdateOne c id data _ =>
      c = collection /\ id = data_id data /\
      exists tweet_type,
        In tweet_type tweet_types /\ data_tweet_type data = Some tweet_type
  | _ => True
  end.

(** The events of a trace that record a call that raised. *)
Definition failed_calls (evs : list event) : list event :=
  filter (fun ev => match failure ev with Some _ => true | None => false end) evs.

(** The pieces a trace of the scraper is made of when the limiter does not
    raise: the resolution of a user and the request of a page, each after
    one acquisition; an upsert, after the acquisition of
    [fetch_tweet_details] and its own; a note. *)
Inductive step (names tweet_types : list string) (collection : string)
    : list event -> Prop :=
| step_user slept name failed :
    In name names ->
    step names tweet_types collection
      [Acquire (RateLimiter.Returned slept); GetUser name failed]
| step_page slept user tweet_type count cursor failed :
    In tweet_type tweet_types ->
    step names tweet_types collection
      [Acquire (RateLimiter.Returned slept);
       GetUserTweets user tweet_type count cursor failed]
| step_store slept1 slept2 tweet_type data failed :
    In tweet_type tweet_types ->
    data_tweet_type data = Some tweet_type ->
    step names tweet_types collection
      [Acquire (RateLimiter.Returned slept1);
       Acquire (RateLimiter.Returned slept2);
       UpdateOne collection (data_id data) data failed]
| step_note ev :
    is_note ev = true ->
    step names tweet_types collection [ev].

Inductive stepwise (names tweet_types : list string) (collection : string)
    : list event -> Prop :=
| stepwise_nil : stepwise names tweet_types collection []
| stepwise_cons piece evs :
    step names tweet_types collection piece ->
    stepwise names tweet_types collection evs ->
    stepwise names tweet_types collection (piece ++ evs).

(** The categories [fetch_user_tweets] goes through, lines 110-111. *)
Definition requested (tweet_types : option (list string)) : list string :=
  match tweet_types with
  | None => ["Tweets"; "Replies"; "Media"; "Likes"]%string
  | Some given => given
  end.

(** Cursors of the pages requested, in order. *)
Fixpoint page_cursors (evs : list event) : list (option Cursor) :=
  match evs with
  | [] => []
  | GetUserTweets _ _ _ cursor _ :: rest => cursor :: page_cursors rest
  | _ :: rest => page_cursors rest
  end.

(** Outcomes of the limiter acquisitions of a trace, in order. *)
Fixpoint acquired (evs : list event) : list RateLimiter.outcome :=
  match evs with
  | [] => []
  | Acquire o :: rest => o :: acquired rest
  | _ :: rest => acquired rest
  end.

(** The limiter after successive calls of [wait_if_needed] that read the
    clock values [nows], and what each of these calls did. *)
Definition acquire_all (self : RateLimiter.t) (nows : list Z) : RateLimiter.t :=
  fold_left (fun limiter now => fst (RateLimiter.wait_if_needed limiter now))
    nows self.

Fixpoint outcomes_all (self : RateLimiter.t) (nows : list Z)
    : list RateLimiter.outcome :=
  match nows with
  | [] => []
  | now :: rest =>
      snd (RateLimiter.wait_if_needed self now)
      :: outcomes_all (fst (RateLimiter.wait_if_needed self now)) rest
  end.

(** A scripted world whose source answers every request with the same [n]
    tweets, numbered from 0, in an object whose [next_cursor] is [None]. *)
Definition restarting_world (n : nat) : Collaborators Z := {|
  time_time := fun e => e;
  asyncio_sleep := fun d e => e + d;
  utcnow := fun e => e;
  load_cookies_file := fun _ e => (inr tt, e);
  get_user_by_screen_name := fun name e =>
    (inr (mkUser (Z.of_nat (String.length name)) name name 0 0 false), e);
  get_user_tweets := fun _ _ _ _ e =>
    (inr (mkPage (Scripted.tweets_from 0 n) (Some None)), e + 1);
  update_one := fun _ _ _ e => (inr tt, e)
|}.

Section TraceVocabulary.
Context {Env : Type} `{C : Collaborators Env}.

(** Started with a positive limit, [m] leaves a trace satisfying [P] and
    ends with a positive limit. *)
Definition keeps {A} (P : list event -> Prop) (m : M Env A) : Prop :=
  forall s, 1 <= limit s ->
    P (snd (m s)) /\ 1 <= limit (snd (fst (m s))).

(** The source never returns more items than it was asked for. *)
Definition source_honours_size : Prop :=
  forall user tweet_type count cursor e page e',
    get_user_tweets user tweet_type count cursor e = (inr page, e') ->
    Z.of_nat (List.length (items page)) <= Z.max 0 count.

(** The state after the step an event records.  An acquisition is a call
    of [wait_if_needed]: it updates [self.rate_limiter] and sleeps when the
    limiter asks.  A call to a collaborator changes the outside world only;
    a log line and [close] change nothing that is modelled. *)
Definition advance (s : Scraper Env) (ev : event) : Scraper Env :=
  match ev with
  | Acquire _ => after_wait s
  | LoadCookies cookie_file _ =>
      mkScraper (snd (load_cookies_file cookie_file (env s))) (rate_limiter s)
  | GetUser screen_name _ =>
      mkScraper (snd (get_user_by_screen_name screen_name (env s)))
        (rate_limiter s)
  | GetUserTweets user tweet_type count cursor _ =>
      mkScraper (snd (get_user_tweets user tweet_type count cursor (env s)))
        (rate_limiter s)
  | UpdateOne collection id data _ =>
      mkScraper (snd (update_one collection id data (env s))) (rate_limiter s)
  | _ => s
  end.

(** The state reached from [s] by the steps of a trace. *)
Fixpoint replay (s : Scraper Env) (evs : list event) : Scraper Env :=
  match evs with
  | [] => s
  | ev :: rest => replay (advance s ev) rest
  end.

(** The values [time.time()] has at the acquisitions of a trace that starts
    in [s]: what line 28 reads at each of them. *)
Fixpoint readings (s : Scraper Env) (evs : list event) : list Z :=
  match evs with
  | [] => []
  | ev :: rest =>
      (if is_acquire ev then [time_time (env s)] else [])
      ++ readings (advance s ev) rest
  end.

(** Every acquisition of the trace records what [self.rate_limiter] did
    when it was called at that point. *)
Fixpoint faithful (s : Scraper Env) (evs : list event) : Prop :=
  match evs with
  | [] => True
  | ev :: rest =>
      match ev with
      | Acquire o =>
          o = snd (RateLimiter.wait_if_needed (rate_limiter s)
                     (time_time (env s)))
      | _ => True
      end /\ faithful (advance s ev) rest
  end.

(** The trace of [m] accounts for everything [m] does to the state: the
    final state, [self.rate_limiter] included, is the one its steps lead
    to, and its acquisitions are the calls made on [self.rate_limiter]. *)
Definition replays {A} (m : M Env A) : Prop :=
  forall s, snd (fst (m s)) = replay s (snd (m s)) /\ faithful s (snd (m s)).

End TraceVocabulary.

(** * Properties of the rate limiter *)

Section LimiterFacts.
Import RateLimiter.

Lemma prune_app W t (xs ys : list Z) :
  prune W t (xs ++ ys) = prune W t xs ++ prune W t ys.
Proof. apply filter_app. Qed.

Lemma prune_length W t (rs : list Z) :
  (List.length (prune W t rs) <= List.length rs)%nat.
Proof. apply filter_length_le. Qed.

(** Pruning at a later instant absorbs pruning at an earlier one. *)
Lemma prune_prune W now t (rs : list Z) :
  now <= t -> prune W t (prune W now rs) = prune W t rs.
Proof.
  intros Hle. unfold prune. induction rs as [|r rs IH]; simpl; [reflexivity|].
  destruct (now - r <? W) eqn:Hn; simpl.
  - rewrite IH. reflexivity.
  - rewrite IH. apply Z.ltb_ge in Hn.
    assert (Ht : (t - r <? W) = false) by (apply Z.ltb_ge; lia).
    rewrite Ht. reflexivity.
Qed.

Lemma wait_if_needed_config (self : t) (now : Z) :
  requests_per_window (fst (wait_if_needed self now)) = requests_per_window self /\
  window_size (fst (wait_if_needed self now)) = window_size self.
Proof.
  unfold wait_if_needed.
  destruct (_ <=? _); [destruct (prune _ _ _)|]; simpl; auto.
Qed.

(** The list never grows beyond the limit. *)
Lemma wait_if_needed_length (self : t) (now : Z) :
  0 <= requests_per_window self ->
  Z.of_nat (List.length (requests self)) <= requests_per_window self ->
  Z.of_nat (List.length (requests (fst (wait_if_needed self now))))
    <= requests_per_window self.
Proof.
  intros HL Hlen. unfold wait_if_needed.
  pose proof (prune_length (window_size self) now (requests self)) as Hp.
  destruct (_ <=? _) eqn:Hfull.
  - destruct (prune _ _ _) as [|oldest rest] eqn:Hrs; simpl in *; [lia|].
    rewrite length_app. simpl. lia.
  - apply Z.leb_gt in Hfull. simpl. rewrite length_app. simpl. lia.
Qed.

Lemma run_inv_start L W t0 : 0 <= L -> run_inv L W (start L W t0).
Proof. intros HL. split; simpl; auto. Qed.

Lemma duration_nonneg self now : 0 <= duration (snd (wait_if_needed self now)).
Proof.
  unfold wait_if_needed.
  destruct (_ <=? _); [destruct (prune _ _ _) as [|oldest rest]|]; simpl; try lia.
  destruct (0 <? _) eqn:Hs; [apply Z.ltb_lt in Hs|]; lia.
Qed.

Lemma run_inv_call L W st now :
  0 <= L -> run_inv L W st -> clock st <= now -> run_inv L W (call st now).
Proof.
  intros HL [Hl Hw Hlen Hpast Hhist] Hnow.
  pose proof (wait_if_needed_config (limiter st) now) as [Hc1 Hc2].
  pose proof (wait_if_needed_length (limiter st) now) as Hlen'.
  pose proof (duration_nonneg (limiter st) now) as Hdur.
  unfold call. destruct (wait_if_needed (limiter st) now) as [self' o] eqn:Hcall.
  simpl in *. split; simpl; try lia.
  - (* every recorded timestamp is in the past *)
    revert Hcall. unfold wait_if_needed.
    assert (Hpr : Forall (fun r => r <= now + duration o)
                    (prune (window_size (limiter st)) now (requests (limiter st)))).
    { unfold prune. apply Forall_forall. intros r Hin.
      apply filter_In in Hin as [Hin _].
      rewrite Forall_forall in Hpast. specialize (Hpast r Hin). lia. }
    destruct (_ <=? _).
    + destruct (prune _ _ _) as [|oldest rest]; intros [= <- <-]; simpl; auto.
      apply Forall_app. split; [eapply Forall_inv_tail; exact Hpr|].
      constructor; auto. simpl in Hdur. simpl.
      destruct (0 <? _); lia.
    + intros [= <- <-]. simpl. apply Forall_app. split; auto.
      constructor; auto. lia.
  - (* the history and the list agree on every later trailing window *)
    intros t Ht. rewrite prune_app, Hhist by lia.
    revert Hcall Ht. unfold wait_if_needed. rewrite Hw.
    destruct (_ <=? _).
    + destruct (prune W now _) as [|oldest rest] eqn:Hrs; intros [= <- <-] Ht; simpl in *.
      * rewrite app_nil_r. rewrite <- (prune_prune W now t) by lia.
        rewrite Hrs. reflexivity.
      * rewrite prune_app. f_equal.
        rewrite <- (prune_prune W now t) by (destruct (0 <? _); lia).
        rewrite Hrs. unfold prune at 1. simpl.
        assert (Hout : (t - oldest <? W) = false).
        { apply Z.ltb_ge. destruct (0 <? W - (now - oldest)) eqn:Hs.
          - lia.
          - apply Z.ltb_ge in Hs. lia. }
        rewrite Hout. reflexivity.
    + intros [= <- <-] Ht. simpl in *. rewrite prune_app. f_equal.
      symmetry. apply prune_prune. lia.
Qed.

Lemma run_inv_run L W nows : forall st,
  0 <= L -> run_inv L W st -> sequential st nows = true ->
  run_inv L W (run st nows).
Proof.
  induction nows as [|now rest IH]; intros st HL Hinv Hseq; simpl in *; auto.
  apply andb_prop in Hseq as [Hnow Hrest]. apply Z.leb_le in Hnow.
  apply IH; auto. apply run_inv_call; auto.
Qed.

Lemma sequential_app nows : forall st more,
  sequential st (nows ++ more) = true ->
  sequential st nows = true /\ sequential (run st nows) more = true.
Proof.
  induction nows as [|now rest IH]; intros st more H; simpl in *; auto.
  apply andb_prop in H as [Hnow Hrest]. rewrite Hnow. simpl.
  apply IH. exact Hrest.
Qed.

(** One call keeps the list sorted when [now] is not earlier than what is
    already recorded. *)
Lemma wait_if_needed_sorted (self : t) (now : Z) :
  StronglySorted Z.le (requests self) ->
  Forall (fun r => r <= now) (requests self) ->
  StronglySorted Z.le (requests (fst (wait_if_needed self now))) /\
  Forall (fun r => r <= now) (requests (fst (wait_if_needed self now))).
Proof.
  intros Hs Hb.
  assert (Hps : StronglySorted Z.le (prune (window_size self) now (requests self))).
  { unfold prune. induction Hs as [|r rs Hrs IH Hall]; simpl; [constructor|].
    inversion Hb; subst.
    destruct (now - r <? _); auto. constructor; auto.
    rewrite Forall_forall in *. intros x Hx. apply filter_In in Hx as [Hx _]. auto. }
  assert (Hpb : Forall (fun r => r <= now) (prune (window_size self) now (requests self))).
  { unfold prune. rewrite Forall_forall in *. intros x Hx.
    apply filter_In in Hx as [Hx _]. auto. }
  assert (Hsnoc : forall rs, StronglySorted Z.le rs -> Forall (fun r => r <= now) rs ->
                             StronglySorted Z.le (rs ++ [now])).
  { intros rs Hrs. induction Hrs as [|r rs Hrs IH Hall]; intros Hle; simpl.
    - repeat constructor.
    - inversion Hle; subst. constructor; auto.
      apply Forall_app. split; auto. }
  unfold wait_if_needed.
  destruct (_ <=? _).
  - destruct (prune _ _ _) as [|oldest rest]; simpl; [split; constructor|].
    inversion Hps; subst. inversion Hpb; subst. split.
    + apply Hsnoc; auto.
    + apply Forall_app. split; auto. constructor; auto. lia.
  - simpl. split.
    + apply Hsnoc; auto.
    + apply Forall_app. split; auto. constructor; auto. lia.
Qed.

Lemma run_limiter_sorted nows : forall st b,
  StronglySorted Z.le (requests (limiter st)) ->
  Forall (fun r => r <= b) (requests (limiter st)) ->
  StronglySorted Z.le (b :: nows) ->
  StronglySorted Z.le (requests (limiter (run st nows))).
Proof.
  induction nows as [|now rest IH]; intros st b Hs Hb Hn; simpl; auto.
  inversion Hn as [|? ? Hn' Hbn]; subst. inversion Hbn as [|? ? Hb1 Hb2]; subst.
  assert (Hb' : Forall (fun r => r <= now) (requests (limiter st))).
  { rewrite Forall_forall in *. intros x Hx. specialize (Hb x Hx). lia. }
  destruct (wait_if_needed_sorted (limiter st) now Hs Hb') as [Hs1 Hb1'].
  apply (IH (call st now) now); auto.
  - unfold call. destruct (wait_if_needed (limiter st) now); simpl in *. auto.
  - unfold call. destruct (wait_if_needed (limiter st) now); simpl in *. auto.
Qed.

Lemma run_length (L : Z) (nows : list Z) : forall st,
  0 <= L ->
  requests_per_window (limiter st) = L ->
  Z.of_nat (List.length (requests (limiter st))) <= L ->
  Z.of_nat (List.length (requests (limiter (run st nows)))) <= L.
Proof.
  induction nows as [|now rest IH]; intros st HL Hl Hlen; simpl; auto.
  pose proof (wait_if_needed_config (limiter st) now) as [Hc _].
  pose proof (wait_if_needed_length (limiter st) now) as Hlen'.
  apply IH; auto; unfold call;
    destruct (wait_if_needed (limiter st) now) as [self' o]; simpl in *; lia.
Qed.

(** What the list does satisfy, for a limit that is not negative: in every
    run of [wait_if_needed] calls on one limiter with limit [L] and window
    [W], the list [requests] never holds more than [L] timestamps, between
    calls and while a call is suspended; and, when no call is entered before
    the previous one has ended, at most [L] of the timestamps appended since
    the start lie within the trailing [W] at every instant from the end of
    the last call on.  Instants before the end of the last call are not
    covered. *)
Theorem limiter_bound (L W t0 : Z) (nows : list Z) :
  0 <= L ->
  let st := run (start L W t0) nows in
  (forall t, in_window W t (requests (limiter st)) <= L) /\
  (forall now t, in_window W t (requests (suspended (limiter st) now)) <= L) /\
  (sequential (start L W t0) nows = true ->
   forall t, clock st <= t -> in_window W t (history st) <= L).
Proof.
  intros HL st.
  assert (Hlen : Z.of_nat (List.length (requests (limiter st))) <= L).
  { apply run_length; simpl; auto. }
  assert (Hlist : forall t, in_window W t (requests (limiter st)) <= L).
  { intros t. unfold in_window.
    pose proof (prune_length W t (requests (limiter st))). lia. }
  split; [exact Hlist|]. split.
  - intros now t. unfold in_window, suspended. simpl.
    pose proof (prune_length W t (prune (window_size (limiter st)) now (requests (limiter st)))).
    pose proof (prune_length (window_size (limiter st)) now (requests (limiter st))).
    lia.
  - intros Hseq t Ht.
    destruct (run_inv_run L W nows (start L W t0) HL (run_inv_start L W t0 HL) Hseq)
      as [_ _ _ _ Hhist].
    fold st in Hhist.
    unfold in_window. rewrite Hhist by exact Ht. apply Hlist.
Qed.

Lemma limiter_bound_witness :
  let st := run (start 2 60 0) [0; 0; 0; 60; 60; 60] in
  (forall t, in_window 60 t (requests (limiter st)) <= 2) /\
  (forall now t, in_window 60 t (requests (suspended (limiter st) now)) <= 2) /\
  (forall t, clock st <= t -> in_window 60 t (history st) <= 2).
Proof.
  destruct (limiter_bound 2 60 0 [0; 0; 0; 60; 60; 60]) as (Hlist & Hsusp & Hhist).
  - lia.
  - split; [exact Hlist|]. split; [exact Hsusp|]. apply Hhist. reflexivity.
Defined.

(** A suspended call appends the instant at which it was entered, which
    is earlier than the instant at which it ends. *)
Lemma suspended_call_records_entry_time (self self' : t) (now d : Z) :
  wait_if_needed self now = (self', Returned (Some d)) ->
  last (requests self') now = now /\ now < now + d.
Proof.
  unfold wait_if_needed.
  destruct (_ <=? _); [|discriminate].
  destruct (prune _ _ _) as [|oldest rest]; [discriminate|].
  destruct (0 <? _) eqn:Hs; [|discriminate].
  intros [= <- <-]. apply Z.ltb_lt in Hs. simpl.
  rewrite last_last. lia.
Qed.

(** C2. With limit 2 and window 60, three calls entered at instant 0: the
    third finds the two timestamps [0; 0], is suspended for 60 ticks, drops
    the oldest timestamp and appends 0, the instant read before the
    suspension, and not 60, the instant at which the suspension ends.  Two
    further calls entered at instant 60 then find both recorded timestamps
    out of the window and return at once: three calls end at instant 60
    under a limit of 2. *)
Theorem suspended_call_appends_stale_time :
  wait_if_needed (mk 2 60 [0; 0]) 0 = (mk 2 60 [0; 0], Returned (Some 60)) /\
  run (start 2 60 0) [0; 0; 0] = mk_run (mk 2 60 [0; 0]) [0; 0; 0] 60 /\
  last (requests (limiter (run (start 2 60 0) [0; 0; 0]))) 0 <> 60 /\
  sequential (start 2 60 0) [0; 0; 0; 60; 60] = true /\
  completions (start 2 60 0) [0; 0; 0; 60; 60] = [0; 0; 60; 60; 60].
Proof. repeat split; try reflexivity. discriminate. Qed.

(** C8. Limiter non-starvation, for a positive limit and a clock that does
    not run backwards: the call that follows any sequential run returns (it
    does not raise), after at most one suspension, whose duration is
    positive and at most the window. *)
Theorem wait_if_needed_returns (L W t0 : Z) (nows : list Z) (now : Z) :
  1 <= L ->
  sequential (start L W t0) (nows ++ [now]) = true ->
  exists self' slept,
    wait_if_needed (limiter (run (start L W t0) nows)) now = (self', Returned slept) /\
    match slept with
    | Some d => 0 < d <= W
    | None => True
    end.
Proof.
  intros HL Hseq. apply sequential_app in Hseq as [Hseq Hlast].
  assert (HL0 : 0 <= L) by lia.
  destruct (run_inv_run L W nows (start L W t0) HL0 (run_inv_start L W t0 HL0) Hseq)
    as [Hl Hw Hlen Hpast Hhist].
  simpl in Hlast. rewrite andb_true_r in Hlast. apply Z.leb_le in Hlast.
  set (st := run (start L W t0) nows) in *.
  unfold wait_if_needed. rewrite Hl, Hw.
  assert (Hpr : Forall (fun r => r <= now) (prune W now (requests (limiter st)))).
  { unfold prune. rewrite Forall_forall in *. intros r Hin.
    apply filter_In in Hin as [Hin _]. specialize (Hpast r Hin). lia. }
  destruct (L <=? _) eqn:Hfull.
  - destruct (prune W now _) as [|oldest rest] eqn:Hrs.
    + apply Z.leb_le in Hfull. simpl in Hfull. lia.
    + eexists _, _. split; [reflexivity|].
      apply Forall_inv in Hpr.
      destruct (0 <? W - (now - oldest)) eqn:Hs; [|exact I].
      apply Z.ltb_lt in Hs. lia.
  - eexists _, _. split; [reflexivity|]. exact I.
Qed.

Lemma wait_if_needed_returns_witness :
  exists self' slept,
    wait_if_needed (limiter (run (start 2 60 0) [0; 0])) 10 = (self', Returned slept) /\
    match slept with
    | Some d => 0 < d <= 60
    | None => True
    end.
Proof. apply (wait_if_needed_returns 2 60 0 [0; 0] 10); [lia | reflexivity]. Defined.

(** C9. When the clock readings of successive calls are non-decreasing, the
    list [requests] is sorted in non-decreasing order after every call, so
    that its first element is the oldest recorded timestamp. *)
Theorem requests_sorted (L W t0 : Z) (nows : list Z) :
  Sorted Z.le nows ->
  let rs := requests (limiter (run (start L W t0) nows)) in
  StronglySorted Z.le rs /\
  (forall oldest rest, rs = oldest :: rest -> Forall (fun r => oldest <= r) rest).
Proof.
  intros Hn rs.
  assert (Hs : StronglySorted Z.le rs).
  { apply Sorted_StronglySorted in Hn; [|intros x y z; apply Z.le_trans].
    destruct nows as [|now rest]; [constructor|].
    apply (run_limiter_sorted (now :: rest) (start L W t0) now); simpl.
    - constructor.
    - constructor.
    - apply SSorted_cons; [exact Hn|].
      apply Forall_cons; [apply Z.le_refl|].
      inversion Hn; subst. assumption. }
  split; [exact Hs|].
  intros oldest rest Heq. rewrite Heq in Hs. inversion Hs; subst. assumption.
Qed.

Lemma requests_sorted_witness :
  let rs := requests (limiter (run (start 2 60 0) [0; 5; 5; 70])) in
  StronglySorted Z.le rs /\
  (forall oldest rest, rs = oldest :: rest -> Forall (fun r => oldest <= r) rest).
Proof.
  apply (requests_sorted 2 60 0 [0; 5; 5; 70]).
  repeat constructor; lia.
Defined.

End LimiterFacts.

(** * Properties of the scraper *)

Create HintDb orderly.
Create HintDb terminating.

Section MonadFacts.
Context {Env : Type} `{C : Collaborators Env}.

Lemma orderly_ret {A} (a : A) : orderly (ret a : M Env A).
Proof. intros s r s' evs [= <- <- <-]. split; auto. Qed.

Lemma orderly_out_of_fuel {A} : orderly (@out_of_fuel Env A).
Proof. intros s r s' evs [= <- <- <-]. split; auto. Qed.

Lemma orderly_get_env : orderly (get_env : M Env Env).
Proof. intros s r s' evs [= <- <- <-]. split; auto. Qed.

Lemma orderly_log ev : quiet ev -> orderly (log ev : M Env unit).
Proof. intros Hq s r s' evs [= <- <- <-]. split; auto. Qed.

Lemma orderly_bind {A B} (m : M Env A) (f : A -> M Env B) :
  orderly m -> (forall a, orderly (f a)) -> orderly (bind m f).
Proof.
  intros Hm Hf s r s' evs. unfold bind.
  destruct (m s) as [[r1 s1] evs1] eqn:Em.
  destruct (Hm _ _ _ _ Em) as [Hl1 He1].
  destruct r1 as [a|e|].
  - destruct (f a s1) as [[r2 s2] evs2] eqn:Ef.
    destruct (Hf a _ _ _ _ Ef) as [Hl2 He2].
    intros [= <- <- <-]. split; [congruence|].
    destruct r2 as [b|e|].
    + apply Forall_app; auto.
    + destruct He2 as (evs0 & ev & -> & Hq & Hfail).
      exists (evs1 ++ evs0), ev. rewrite app_assoc. repeat split; auto.
      apply Forall_app; auto.
    + apply Forall_app; auto.
  - intros [= <- <- <-]. auto.
  - intros [= <- <- <-]. auto.
Qed.

Lemma orderly_collaborate {A} (op : Env -> (exn + A) * Env)
    (record : option exn -> event) :
  (forall failed, failure (record failed) = failed) ->
  orderly (collaborate op record).
Proof.
  intros Hrec s r s' evs. unfold collaborate.
  destruct (op (env s)) as [[e|a] e'].
  - intros [= <- <- <-]. split; [reflexivity|].
    exists [], (record (Some e)). repeat split; auto.
  - intros [= <- <- <-]. split; [reflexivity|].
    repeat constructor. apply Hrec.
Qed.

Lemma orderly_wait_if_needed : orderly wait_if_needed.
Proof.
  intros s r s' evs. unfold wait_if_needed.
  pose proof (wait_if_needed_config (rate_limiter s) (time_time (env s))) as [Hc _].
  destruct (RateLimiter.wait_if_needed _ _) as [limiter' o].
  simpl in Hc. destruct o as [[d|]|]; intros [= <- <- <-]; (split; [exact Hc|]).
  - repeat constructor.
  - repeat constructor.
  - exists [], (Acquire RateLimiter.RaisedIndexError). repeat split; auto.
Qed.

Lemma terminating_bind {A B} (m : M Env A) (f : A -> M Env B) :
  terminating m -> (forall a, terminating (f a)) -> terminating (bind m f).
Proof.
  intros Hm Hf s. unfold bind. specialize (Hm s).
  destruct (m s) as [[r1 s1] evs1]. destruct r1 as [a|e|]; simpl in *.
  - specialize (Hf a s1). destruct (f a s1) as [[r2 s2] evs2]. exact Hf.
  - discriminate.
  - congruence.
Qed.

Lemma terminating_ret {A} (a : A) : terminating (ret a : M Env A).
Proof. intros s. discriminate. Qed.

Lemma terminating_log ev : terminating (log ev : M Env unit).
Proof. intros s. discriminate. Qed.

Lemma terminating_collaborate {A} (op : Env -> (exn + A) * Env) record :
  terminating (collaborate op record).
Proof.
  intros s. unfold collaborate.
  destruct (op (env s)) as [[e|a] e']; discriminate.
Qed.

Lemma terminating_wait_if_needed : terminating wait_if_needed.
Proof.
  intros s. unfold wait_if_needed.
  destruct (RateLimiter.wait_if_needed _ _) as [limiter' [[d|]|]]; discriminate.
Qed.

(** What a sequence of two computations did, read off its result. *)
Lemma bind_inv {A B} (m : M Env A) (f : A -> M Env B) s r s' evs :
  bind m f s = (r, s', evs) ->
  (exists a s1 evs1 evs2,
      m s = (Ok a, s1, evs1) /\ f a s1 = (r, s', evs2) /\ evs = evs1 ++ evs2) \/
  ((exists e, m s = (Raise e, s', evs) /\ r = Raise e) \/
   (m s = (OutOfFuel, s', evs) /\ r = OutOfFuel)).
Proof.
  unfold bind. destruct (m s) as [[r1 s1] evs1]. destruct r1 as [a|e|].
  - destruct (f a s1) as [[r2 s2] evs2] eqn:Ef. intros [= <- <- <-].
    left. exists a, s1, evs1, evs2. auto.
  - intros [= <- <- <-]. right. left. eauto.
  - intros [= <- <- <-]. right. right. auto.
Qed.

End MonadFacts.

#[global] Hint Resolve orderly_ret orderly_get_env orderly_wait_if_needed
  orderly_out_of_fuel orderly_bind : orderly.
#[global] Hint Extern 1 (orderly (log _)) =>
  apply orderly_log; reflexivity : orderly.
#[global] Hint Extern 1 (orderly (collaborate _ _)) =>
  apply orderly_collaborate; intros; reflexivity : orderly.
#[global] Hint Resolve terminating_ret terminating_log terminating_bind
  terminating_collaborate terminating_wait_if_needed : terminating.


Tactic Notation "bind_cases" hyp(H) "as" ident(a) ident(H1) ident(H2) :=
  let s1 := fresh "s1" in
  let evs1 := fresh "evs1" in let evs2 := fresh "evs2" in
  let e := fresh "e" in let Hr := fresh "Hresult" in
  apply bind_inv in H;
  destruct H as [(a & s1 & evs1 & evs2 & H1 & H2 & ->)
                | [(e & H1 & Hr) | (H1 & Hr)]].


Section ScraperFacts.
Context {Env : Type} `{C : Collaborators Env}.

Lemma bind_ok {A B} (m : M Env A) (f : A -> M Env B) s a s1 evs1 r s2 evs2 :
  m s = (Ok a, s1, evs1) -> f a s1 = (r, s2, evs2) ->
  bind m f s = (r, s2, evs1 ++ evs2).
Proof. intros Hm Hf. unfold bind. rewrite Hm, Hf. reflexivity. Qed.

Lemma bind_events_prefix {A B} (m : M Env A) (f : A -> M Env B) s :
  exists more, snd (bind m f s) = snd (m s) ++ more.
Proof.
  unfold bind. destruct (m s) as [[r1 s1] evs1]. destruct r1 as [a|e|]; simpl.
  - destruct (f a s1) as [[r2 s2] evs2]. simpl. eauto.
  - exists []. rewrite app_nil_r. reflexivity.
  - exists []. rewrite app_nil_r. reflexivity.
Qed.

(** *** Reading traces *)

Lemma acquisitions_app evs1 evs2 :
  acquisitions (evs1 ++ evs2) = acquisitions evs1 + acquisitions evs2.
Proof. unfold acquisitions. rewrite filter_app, length_app. lia. Qed.

Lemma page_requests_app evs1 evs2 :
  page_requests (evs1 ++ evs2) = page_requests evs1 ++ page_requests evs2.
Proof.
  induction evs1 as [|ev evs1 IH]; simpl; auto.
  destruct ev; simpl; rewrite IH; reflexivity.
Qed.

Lemma upserts_app evs1 evs2 :
  upserts (evs1 ++ evs2) = upserts evs1 ++ upserts evs2.
Proof.
  induction evs1 as [|ev evs1 IH]; simpl; auto.
  destruct ev; simpl; rewrite IH; reflexivity.
Qed.

Lemma logged_counts_app evs1 evs2 :
  logged_counts (evs1 ++ evs2) = logged_counts evs1 ++ logged_counts evs2.
Proof.
  induction evs1 as [|ev evs1 IH]; simpl; auto.
  destruct ev; simpl; rewrite IH; reflexivity.
Qed.

Lemma requests_with_progress_app evs1 : forall done evs2,
  requests_with_progress done (evs1 ++ evs2) =
  requests_with_progress done evs1 ++
  requests_with_progress (done + Z.of_nat (List.length (upserts evs1))) evs2.
Proof.
  induction evs1 as [|ev evs1 IH]; intros done evs2; simpl.
  - f_equal. lia.
  - destruct ev; simpl; rewrite IH; try reflexivity.
    f_equal. f_equal. lia.
Qed.

(** *** The limiter inside the scraper *)

Lemma limiter_never_raises (self : RateLimiter.t) (now : Z) :
  1 <= RateLimiter.requests_per_window self ->
  exists slept,
    snd (RateLimiter.wait_if_needed self now) = RateLimiter.Returned slept.
Proof.
  intros HL. unfold RateLimiter.wait_if_needed.
  destruct (_ <=? _) eqn:Hfull; [|simpl; eauto].
  destruct (RateLimiter.prune _ _ _) as [|oldest rest]; simpl; eauto.
  apply Z.leb_le in Hfull. simpl in Hfull. lia.
Qed.

Lemma wait_if_needed_events (s : Scraper Env) :
  exists o, snd (wait_if_needed s) = [Acquire o].
Proof.
  unfold wait_if_needed.
  destruct (RateLimiter.wait_if_needed _ _) as [limiter' [[d|]|]]; simpl; eauto.
Qed.

Lemma wait_if_needed_ok (s : Scraper Env) :
  1 <= limit s ->
  exists slept,
    wait_if_needed s = (Ok tt, after_wait s, [Acquire (RateLimiter.Returned slept)]) /\
    limit (after_wait s) = limit s.
Proof.
  intros HL. unfold after_wait, wait_if_needed, limit in *.
  destruct (limiter_never_raises (rate_limiter s) (time_time (env s)) HL) as [slept Hs].
  pose proof (wait_if_needed_config (rate_limiter s) (time_time (env s))) as [Hc _].
  destruct (RateLimiter.wait_if_needed _ _) as [limiter' o]. simpl in *. subst o.
  destruct slept as [d|]; simpl; eauto.
Qed.

Lemma wait_if_needed_trace (s : Scraper Env) r s' evs :
  wait_if_needed s = (r, s', evs) ->
  s' = after_wait s /\ exists o, evs = [Acquire o].
Proof.
  intros H. unfold after_wait. rewrite H. split; [reflexivity|].
  destruct (wait_if_needed_events s) as [o Ho]. rewrite H in Ho. eauto.
Qed.

Lemma collaborate_trace {A} (op : Env -> (exn + A) * Env) record
    (s : Scraper Env) r s' evs :
  collaborate op record s = (r, s', evs) ->
  (exists a, op (env s) = (inr a, env s') /\ r = Ok a /\ evs = [record None]) \/
  (exists e, op (env s) = (inl e, env s') /\ r = Raise e /\ evs = [record (Some e)]).
Proof.
  unfold collaborate. destruct (op (env s)) as [[e|a] e'];
    intros [= <- <- <-]; simpl; eauto.
Qed.

Section CategoryFacts.
Variable screen_name : string.
Variable max_tweets_per_type : Z.
Variable collection_name : string.
Variable user : User.
Variable tweet_type : string.

Lemma orderly_fetch_tweet_details tweet : orderly (fetch_tweet_details tweet).
Proof. unfold fetch_tweet_details. auto with orderly. Qed.

Lemma orderly_process_tweet tweet :
  orderly (process_tweet collection_name tweet_type tweet).
Proof.
  unfold process_tweet. pose proof orderly_fetch_tweet_details.
  auto with orderly.
Qed.

Lemma orderly_for_tweets tweets : forall n,
  orderly (for_tweets collection_name tweet_type tweets n).
Proof.
  pose proof orderly_process_tweet.
  induction tweets as [|tweet rest IH]; intros n; simpl; auto with orderly.
Qed.

Lemma orderly_fetch_batch n cursor :
  orderly (fetch_batch screen_name max_tweets_per_type collection_name
             user tweet_type n cursor).
Proof.
  unfold fetch_batch. pose proof orderly_for_tweets.
  apply orderly_bind; auto with orderly. intros _.
  apply orderly_bind; auto with orderly. intros tweets.
  destruct (items tweets); auto with orderly.
  apply orderly_bind; auto with orderly. intros n'.
  apply orderly_bind; auto with orderly. intros _.
  destruct (next_cursor tweets); auto with orderly.
Qed.

Lemma orderly_while_fetching fuel : forall n cursor,
  orderly (while_fetching screen_name max_tweets_per_type collection_name
             user tweet_type fuel n cursor).
Proof.
  pose proof orderly_fetch_batch.
  induction fuel as [|fuel IH]; intros n cursor; simpl;
    destruct (n <? max_tweets_per_type); auto with orderly.
  apply orderly_bind; auto. intros [[n' cursor']|]; auto with orderly.
Qed.

Lemma terminating_process_tweet tweet :
  terminating (process_tweet collection_name tweet_type tweet).
Proof.
  unfold process_tweet, fetch_tweet_details.
  repeat (apply terminating_bind; [|intros ?]); auto with terminating.
  intros s. discriminate.
Qed.

Lemma terminating_for_tweets tweets : forall n,
  terminating (for_tweets collection_name tweet_type tweets n).
Proof.
  pose proof terminating_process_tweet.
  induction tweets as [|tweet rest IH]; intros n; simpl; auto with terminating.
Qed.

Lemma terminating_fetch_batch n cursor :
  terminating (fetch_batch screen_name max_tweets_per_type collection_name
                 user tweet_type n cursor).
Proof.
  unfold fetch_batch. pose proof terminating_for_tweets.
  apply terminating_bind; auto with terminating. intros _.
  apply terminating_bind; auto with terminating. intros tweets.
  destruct (items tweets); auto with terminating.
  apply terminating_bind; auto with terminating. intros n'.
  apply terminating_bind; auto with terminating. intros _.
  destruct (next_cursor tweets); auto with terminating.
Qed.

(** The counter after the [for] loop. *)
Lemma for_tweets_count tweets : forall n s n' s' evs,
  for_tweets collection_name tweet_type tweets n s = (Ok n', s', evs) ->
  n' = n + Z.of_nat (List.length tweets).
Proof.
  induction tweets as [|tweet rest IH]; intros n s n' s' evs H; simpl in H.
  - unfold ret in H. inversion H; subst. simpl. lia.
  - bind_cases H as u Hitem Hrest; try discriminate.
    apply IH in Hrest. simpl List.length. lia.
Qed.

(** An iteration that does not leave the loop has made progress. *)
Lemma fetch_batch_progress n cursor s n' cursor' s' evs :
  fetch_batch screen_name max_tweets_per_type collection_name user
    tweet_type n cursor s = (Ok (Some (n', cursor')), s', evs) ->
  n < n'.
Proof.
  unfold fetch_batch. intros H.
  bind_cases H as u Hwait Hfetch; try discriminate.
  bind_cases Hfetch as tweets Hpage Hbody; try discriminate.
  destruct (items tweets) as [|tweet rest] eqn:Hitems; [discriminate|].
  bind_cases Hbody as n1 Hfor Hlog; try discriminate.
  bind_cases Hlog as u1 Hlog1 Hend; try discriminate.
  apply for_tweets_count in Hfor. simpl List.length in Hfor.
  destruct (next_cursor tweets); inversion Hend; subst. lia.
Qed.

Lemma terminating_while_fetching fuel : forall n cursor,
  (Z.to_nat (max_tweets_per_type - n) <= fuel)%nat ->
  terminating (while_fetching screen_name max_tweets_per_type
                 collection_name user tweet_type fuel n cursor).
Proof.
  induction fuel as [|fuel IH]; intros n cursor Hfuel s; simpl;
    destruct (n <? max_tweets_per_type) eqn:Hlt;
    try discriminate; apply Z.ltb_lt in Hlt; [lia|].
  unfold bind.
  pose proof (terminating_fetch_batch n cursor s) as Hb.
  destruct (fetch_batch _ _ _ _ _ n cursor s) as [[r1 s1] evs1] eqn:Eb.
  destruct r1 as [[[n' cursor']|]|e|]; simpl in *; try discriminate; try congruence.
  apply fetch_batch_progress in Eb.
  assert (Hfuel' : (Z.to_nat (max_tweets_per_type - n') <= fuel)%nat) by lia.
  specialize (IH n' cursor' Hfuel' s1).
  destruct (while_fetching _ _ _ _ _ fuel n' cursor' s1) as [[r2 s2] evs2].
  exact IH.
Qed.

(** *** What the category loop leaves in the trace *)

Lemma process_tweet_events tweet (s : Scraper Env) r s' evs :
  process_tweet collection_name tweet_type tweet s = (r, s', evs) ->
  (forall done, requests_with_progress done evs = []) /\
  (forall u, r = Ok u ->
     exists o1 o2 data,
       evs = [Acquire o1; Acquire o2;
              UpdateOne collection_name (tweet_id tweet) data None]).
Proof.
  unfold process_tweet, fetch_tweet_details. intros H.
  bind_cases H as data Hdetails Hstore.
  - bind_cases Hdetails as u1 Hw1 Hbuild; try discriminate.
    bind_cases Hbuild as e1 Hget Hret; try discriminate.
    unfold get_env in Hget. unfold ret in Hret.
    inversion Hget; subst. inversion Hret; subst. clear Hget Hret.
    apply wait_if_needed_trace in Hw1 as [_ [o1 ->]].
    bind_cases Hstore as u2 Hw2 Hput.
    + apply wait_if_needed_trace in Hw2 as [_ [o2 ->]].
      apply collaborate_trace in Hput
        as [(a & _ & -> & ->) | (e & _ & -> & ->)]; simpl.
      * split; [reflexivity|]. intros _ _. eauto.
      * split; [reflexivity|]. discriminate.
    + apply wait_if_needed_trace in Hw2 as [_ [o2 ->]].
      subst r. split; [reflexivity|]. discriminate.
    + apply wait_if_needed_trace in Hw2 as [_ [o2 ->]].
      subst r. split; [reflexivity|]. discriminate.
  - subst r. split; [|discriminate].
    bind_cases Hdetails as u1 Hw1 Hbuild; try discriminate.
    apply wait_if_needed_trace in Hw1 as [_ [o1 ->]]. reflexivity.
  - subst r. split; [|discriminate].
    bind_cases Hdetails as u1 Hw1 Hbuild; try discriminate.
    apply wait_if_needed_trace in Hw1 as [_ [o1 ->]]. reflexivity.
Qed.

Lemma for_tweets_events tweets : forall n (s : Scraper Env) r s' evs,
  for_tweets collection_name tweet_type tweets n s = (r, s', evs) ->
  (forall done, requests_with_progress done evs = []) /\
  (forall n', r = Ok n' ->
     upserts evs = map tweet_id tweets /\
     acquisitions evs = 2 * Z.of_nat (List.length tweets) /\
     page_requests evs = [] /\ logged_counts evs = []).
Proof.
  induction tweets as [|tweet rest IH]; intros n s r s' evs H; simpl in H.
  - unfold ret in H. inversion H; subst. repeat split; reflexivity.
  - bind_cases H as u Hitem Hrest.
    + apply process_tweet_events in Hitem as [Hnone Hshape].
      destruct (Hshape u eq_refl) as (o1 & o2 & data & ->).
      apply IH in Hrest as [Hnone' Hok]. split.
      * intros done. simpl. apply Hnone'.
      * intros n' Hn'. destruct (Hok n' Hn') as (Hu & Ha & Hp & Hl).
        simpl. rewrite Hu, Hp, Hl. repeat split; auto.
        change (acquisitions (Acquire o1 :: Acquire o2 :: UpdateOne collection_name (tweet_id tweet) data None :: evs2))
          with (acquisitions ([Acquire o1; Acquire o2] ++ UpdateOne collection_name (tweet_id tweet) data None :: evs2)).
        rewrite acquisitions_app.
        change (UpdateOne collection_name (tweet_id tweet) data None :: evs2)
          with ([UpdateOne collection_name (tweet_id tweet) data None] ++ evs2).
        rewrite acquisitions_app, Ha. unfold acquisitions at 1 2. simpl filter.
        simpl List.length. lia.
    + subst r. apply process_tweet_events in Hitem as [Hnone _].
      split; [exact Hnone|discriminate].
    + subst r. apply process_tweet_events in Hitem as [Hnone _].
      split; [exact Hnone|discriminate].
Qed.

(** One iteration: the page is requested with the size the progress
    commands, and the counter after it is the number of items handed to
    the store so far. *)
Lemma fetch_batch_events n cursor (s : Scraper Env) r s' evs :
  fetch_batch screen_name max_tweets_per_type collection_name user
    tweet_type n cursor s = (r, s', evs) ->
  Forall (page_size_ok max_tweets_per_type) (requests_with_progress n evs) /\
  (forall n' cursor', r = Ok (Some (n', cursor')) ->
     n' = n + Z.of_nat (List.length (upserts evs))).
Proof.
  unfold fetch_batch. intros H.
  bind_cases H as u Hwait Hfetch.
  - apply wait_if_needed_trace in Hwait as [_ [o ->]].
    bind_cases Hfetch as tweets Hpage Hbody.
    + apply collaborate_trace in Hpage
        as [(a & _ & [= <-] & ->) | (e & _ & [=] & _)].
      destruct (items tweets) as [|tweet rest] eqn:Hitems.
      * unfold ret in Hbody. inversion Hbody; subst. simpl. split.
        -- repeat constructor.
        -- discriminate.
      * bind_cases Hbody as n1 Hfor Hlog.
        -- pose proof (for_tweets_count _ _ _ _ _ _ Hfor) as Hn1.
           apply for_tweets_events in Hfor as [Hnone Hok].
           destruct (Hok n1 eq_refl) as (Hu & _ & _ & _).
           bind_cases Hlog as u1 Hlog1 Hend; try discriminate.
           unfold log in Hlog1. inversion Hlog1; subst.
           destruct (next_cursor tweets) as [cursor1|];
             unfold ret in Hend; inversion Hend; subst; simpl;
             (split;
              [ rewrite requests_with_progress_app, Hnone; simpl;
                constructor; [reflexivity | constructor]
              | intros n' cursor' Hr; inversion Hr; subst;
                rewrite upserts_app, Hu; simpl;
                rewrite app_nil_r, length_map; reflexivity ]).
        -- subst r. apply for_tweets_events in Hfor as [Hnone _]. simpl.
           rewrite Hnone. split; [repeat constructor|discriminate].
        -- subst r. apply for_tweets_events in Hfor as [Hnone _]. simpl.
           rewrite Hnone. split; [repeat constructor|discriminate].
    + subst r. apply collaborate_trace in Hpage
        as [(a & _ & [=] & _) | (e' & _ & _ & ->)].
      simpl. split; [repeat constructor|discriminate].
    + apply collaborate_trace in Hpage
        as [(a & _ & [=] & _) | (e' & _ & [=] & _)].
  - subst r. apply wait_if_needed_trace in Hwait as [_ [o ->]].
    simpl. split; [constructor|discriminate].
  - subst r. apply wait_if_needed_trace in Hwait as [_ [o ->]].
    simpl. split; [constructor|discriminate].
Qed.

Lemma while_fetching_page_sizes fuel : forall n cursor (s : Scraper Env),
  Forall (page_size_ok max_tweets_per_type)
    (requests_with_progress n
       (snd (while_fetching screen_name max_tweets_per_type
               collection_name user tweet_type fuel n cursor s))).
Proof.
  induction fuel as [|fuel IH]; intros n cursor s; simpl;
    destruct (n <? max_tweets_per_type); try constructor.
  destruct (bind _ _ s) as [[r s'] evs] eqn:E. simpl.
  bind_cases E as next Hbatch Hloop.
  - apply fetch_batch_events in Hbatch as [Hsizes Hcount].
    rewrite requests_with_progress_app. apply Forall_app. split; auto.
    destruct next as [[n' cursor']|].
    + rewrite <- (Hcount n' cursor' eq_refl).
      specialize (IH n' cursor' s1). rewrite Hloop in IH. exact IH.
    + unfold ret in Hloop. inversion Hloop; subst. constructor.
  - apply fetch_batch_events in Hbatch as [Hsizes _]. exact Hsizes.
  - apply fetch_batch_events in Hbatch as [Hsizes _]. exact Hsizes.
Qed.

(** *** When the limiter and the store do not fail *)

Lemma process_tweet_succeeds tweet (s : Scraper Env) :
  store_never_fails -> 1 <= limit s ->
  exists s' evs,
    process_tweet collection_name tweet_type tweet s = (Ok tt, s', evs) /\
    limit s' = limit s.
Proof.
  intros Hstore HL.
  destruct (wait_if_needed_ok s HL) as (o1 & Hw1 & Hl1).
  assert (HL1 : 1 <= limit (after_wait s)) by lia.
  destruct (wait_if_needed_ok _ HL1) as (o2 & Hw2 & Hl2).
  unfold process_tweet, fetch_tweet_details, bind, get_env, ret.
  rewrite Hw1, Hw2. unfold collaborate.
  match goal with
  | |- context [update_one ?c ?i ?d ?e] =>
      pose proof (Hstore c i d e) as Hput; destruct (update_one c i d e) as [r e']
  end.
  simpl in Hput. subst r. eexists _, _. split; [reflexivity|].
  unfold limit in *. simpl. lia.
Qed.

Lemma for_tweets_succeeds tweets : forall n (s : Scraper Env),
  store_never_fails -> 1 <= limit s ->
  exists s' evs,
    for_tweets collection_name tweet_type tweets n s =
      (Ok (n + Z.of_nat (List.length tweets)), s', evs) /\
    limit s' = limit s.
Proof.
  induction tweets as [|tweet rest IH]; intros n s Hstore HL; simpl.
  - exists s, []. unfold ret. split; [|reflexivity]. do 3 f_equal. lia.
  - destruct (process_tweet_succeeds tweet s Hstore HL) as (s1 & evs1 & H1 & Hl1).
    assert (HL1 : 1 <= limit s1) by lia.
    destruct (IH (n + 1) s1 Hstore HL1) as (s2 & evs2 & H2 & Hl2).
    exists s2, (evs1 ++ evs2). split; [|lia].
    erewrite bind_ok; [|exact H1|exact H2]. do 3 f_equal. lia.
Qed.

(** An iteration whose page request is answered. *)
Lemma fetch_batch_succeeds n cursor (s : Scraper Env) page e' :
  store_never_fails -> 1 <= limit s ->
  get_user_tweets (user_id user) tweet_type
    (Z.min 20 (max_tweets_per_type - n)) cursor (env (after_wait s))
    = (inr page, e') ->
  exists s' evs,
    fetch_batch screen_name max_tweets_per_type collection_name user
      tweet_type n cursor s =
      (Ok (match items page, next_cursor page with
           | _ :: _, Some cursor' =>
               Some (n + Z.of_nat (List.length (items page)), cursor')
           | _, _ => None
           end), s', evs) /\
    limit s' = limit s /\
    page_requests evs = [Z.min 20 (max_tweets_per_type - n)] /\
    upserts evs = map tweet_id (items page) /\
    logged_counts evs =
      match items page with
      | [] => []
      | _ :: _ => [n + Z.of_nat (List.length (items page))]
      end.
Proof.
  intros Hstore HL Hpage.
  destruct (wait_if_needed_ok s HL) as (o & Hw & Hl).
  assert (Hfetch : collaborate
            (get_user_tweets (user_id user) tweet_type
               (Z.min 20 (max_tweets_per_type - n)) cursor)
            (GetUserTweets (user_id user) tweet_type
               (Z.min 20 (max_tweets_per_type - n)) cursor) (after_wait s)
          = (Ok page, mkScraper e' (rate_limiter (after_wait s)),
             [GetUserTweets (user_id user) tweet_type
                (Z.min 20 (max_tweets_per_type - n)) cursor None])).
  { unfold collaborate. rewrite Hpage. reflexivity. }
  set (s1 := mkScraper e' (rate_limiter (after_wait s))) in *.
  assert (HL1 : 1 <= limit s1) by (unfold limit in *; simpl; lia).
  unfold fetch_batch.
  destruct (items page) as [|tweet rest] eqn:Hitems.
  - exists s1, ([Acquire (RateLimiter.Returned o)] ++
                [GetUserTweets (user_id user) tweet_type
                   (Z.min 20 (max_tweets_per_type - n)) cursor None] ++ []).
    split; [|repeat split; try reflexivity; unfold limit in *; simpl; lia].
    eapply bind_ok; [exact Hw|]. eapply bind_ok; [exact Hfetch|].
    rewrite Hitems. reflexivity.
  - destruct (for_tweets_succeeds (tweet :: rest) n s1 Hstore HL1)
      as (s2 & evs2 & Hfor & Hl2).
    pose proof (for_tweets_events _ _ _ _ _ _ Hfor) as [_ Hok].
    destruct (Hok _ eq_refl) as (Hu & _ & Hp & Hlg).
    exists s2, ([Acquire (RateLimiter.Returned o)] ++
                [GetUserTweets (user_id user) tweet_type
                   (Z.min 20 (max_tweets_per_type - n)) cursor None] ++
                evs2 ++
                [LogFetched (n + Z.of_nat (List.length (tweet :: rest)))
                   tweet_type screen_name] ++ []).
    split; [|repeat split].
    + eapply bind_ok; [exact Hw|]. eapply bind_ok; [exact Hfetch|].
      rewrite Hitems. eapply bind_ok; [exact Hfor|].
      eapply bind_ok; [reflexivity|].
      destruct (next_cursor page); reflexivity.
    + unfold limit in *. simpl in *. lia.
    + simpl. rewrite page_requests_app, Hp. reflexivity.
    + simpl upserts. rewrite upserts_app, Hu. apply app_nil_r.
    + simpl logged_counts. rewrite logged_counts_app, Hlg. reflexivity.
Qed.

Lemma orderly_fetch_category :
  orderly (fetch_category screen_name max_tweets_per_type collection_name
             user tweet_type).
Proof. apply orderly_while_fetching. Qed.

Lemma terminating_fetch_category :
  terminating (fetch_category screen_name max_tweets_per_type
                 collection_name user tweet_type).
Proof. apply terminating_while_fetching. lia. Qed.

End CategoryFacts.

Lemma orderly_for_each {A} (body : A -> M Env unit) xs :
  (forall x, orderly (body x)) -> orderly (for_each xs body).
Proof. intros Hb. induction xs as [|x rest IH]; simpl; auto with orderly. Qed.

Lemma terminating_for_each {A} (body : A -> M Env unit) xs :
  (forall x, terminating (body x)) -> terminating (for_each xs body).
Proof. intros Hb. induction xs as [|x rest IH]; simpl; auto with terminating. Qed.

(** In a trace with a single failed call, that call is found at one place
    only. *)
Lemma failure_position (evs0 : list event) : forall ev tail pre ev' post e',
  Forall quiet evs0 -> Forall quiet tail ->
  evs0 ++ ev :: tail = pre ++ ev' :: post ->
  failure ev' = Some e' ->
  pre = evs0 /\ ev' = ev /\ post = tail.
Proof.
  unfold quiet.
  induction evs0 as [|x evs0 IH]; intros ev tail pre ev' post e' Hq Ht Heq Hf.
  - destruct pre as [|y pre]; simpl in Heq.
    + injection Heq as <- <-. auto.
    + injection Heq as <- ->. rewrite Forall_forall in Ht.
      assert (Hin : In ev' (pre ++ ev' :: post)) by (apply in_elt).
      apply Ht in Hin. congruence.
  - inversion Hq as [|? ? Hx Hq']; subst.
    destruct pre as [|y pre]; simpl in Heq.
    + injection Heq as -> _. congruence.
    + injection Heq as <- Heq.
      destruct (IH _ _ _ _ _ _ Hq' Ht Heq Hf) as (-> & -> & ->). auto.
Qed.

Lemma quiet_trace_has_no_failure evs pre ev post e :
  Forall quiet evs -> evs = pre ++ ev :: post -> failure ev = Some e -> False.
Proof.
  intros Hq -> Hf. rewrite Forall_forall in Hq.
  assert (Hin : In ev (pre ++ ev :: post)) by (apply in_elt).
  apply Hq in Hin. unfold quiet in Hin. congruence.
Qed.

(** The [try] block of [fetch_user_tweets]. *)
Lemma fetch_user_tweets_shape screen_name tweet_types max_tweets_per_type
    collection_name s r s' evs :
  fetch_user_tweets screen_name tweet_types max_tweets_per_type
    collection_name s = (r, s', evs) ->
  limit s' = limit s /\
  match r with
  | Ok _ => Forall quiet evs
  | Raise e =>
      exists evs0 ev,
        evs = evs0 ++ [ev; LogErrorFetching screen_name e] /\
        Forall quiet evs0 /\ failure ev = Some e
  | OutOfFuel => False
  end.
Proof.
  unfold fetch_user_tweets, try_except.
  set (types := match tweet_types with None => default_tweet_types | Some g => g end).
  set (attempt := bind wait_if_needed _).
  assert (Ho : orderly attempt).
  { unfold attempt.
    pose proof (orderly_fetch_category screen_name max_tweets_per_type collection_name).
    pose proof (@orderly_for_each string).
    auto 6 with orderly. }
  assert (Ht : terminating attempt).
  { unfold attempt.
    pose proof (terminating_fetch_category screen_name max_tweets_per_type collection_name).
    pose proof (@terminating_for_each string).
    auto 6 with terminating. }
  specialize (Ht s).
  destruct (attempt s) as [[r1 s1] evs1] eqn:Ea.
  destruct (Ho _ _ _ _ Ea) as [Hl He]. simpl in Ht.
  destruct r1 as [a|e|]; try congruence.
  - intros [= <- <- <-]. auto.
  - unfold bind, log, raise. intros [= <- <- <-]. split; [exact Hl|].
    destruct He as (evs0 & ev & -> & Hq & Hf).
    exists evs0, ev. rewrite <- app_assoc. auto.
Qed.

Lemma fetch_user_tweets_never_out_of_fuel screen_name tweet_types
    max_tweets_per_type collection_name s :
  fst (fst (fetch_user_tweets screen_name tweet_types max_tweets_per_type
              collection_name s)) <> OutOfFuel.
Proof.
  destruct (fetch_user_tweets _ _ _ _ s) as [[r s'] evs] eqn:E.
  apply fetch_user_tweets_shape in E as [_ E]. simpl.
  intros ->. exact E.
Qed.

(** C7. Whatever call fails while [fetch_user_tweets] processes a subject
    - the resolution of the user, a page request, an upsert, or the limiter -
    nothing had failed before, the exception of that call is the one
    [fetch_user_tweets] raises to its caller, and after the failed call the
    only thing done is to log the error with the subject's screen name: no
    further page, item or category is processed. *)
Theorem fetch_user_tweets_aborts_on_error
    screen_name tweet_types max_tweets_per_type collection_name
    (s : Scraper Env) pre ev e post :
  snd (fetch_user_tweets screen_name tweet_types max_tweets_per_type
         collection_name s) = pre ++ ev :: post ->
  failure ev = Some e ->
  fst (fst (fetch_user_tweets screen_name tweet_types max_tweets_per_type
              collection_name s)) = Raise e /\
  post = [LogErrorFetching screen_name e] /\
  Forall quiet pre.
Proof.
  intros Hevs Hf.
  destruct (fetch_user_tweets _ _ _ _ s) as [[r s'] evs] eqn:E. simpl in *.
  apply fetch_user_tweets_shape in E as [_ E].
  destruct r as [a|e0|].
  - exfalso. eapply quiet_trace_has_no_failure; eauto.
  - destruct E as (evs0 & ev0 & Heq & Hq & Hf0). subst evs.
    assert (Htail : Forall quiet [LogErrorFetching screen_name e0])
      by (repeat constructor).
    destruct (failure_position _ _ _ _ _ _ _ Hq Htail Hevs Hf) as (-> & -> & ->).
    assert (e0 = e) by congruence. subst e0. auto.
  - contradiction.
Qed.

Lemma orderly_load_cookies cookie_file : orderly (load_cookies cookie_file).
Proof. unfold load_cookies. auto with orderly. Qed.

(** The loop of [main] over the screen names. *)
Lemma batch_shape max_tweets_per_type tweet_types collection_name names :
  forall s r s' evs,
  for_each names (fun screen_name =>
    fetch_user_tweets screen_name tweet_types max_tweets_per_type
      collection_name) s = (r, s', evs) ->
  match r with
  | Ok _ => Forall quiet evs
  | Raise e =>
      exists evs0 ev screen_name,
        In screen_name names /\
        evs = evs0 ++ [ev; LogErrorFetching screen_name e] /\
        Forall quiet evs0 /\ failure ev = Some e
  | OutOfFuel => False
  end.
Proof.
  induction names as [|name rest IH]; intros s r s' evs H; simpl in H.
  - unfold ret in H. inversion H; subst. constructor.
  - bind_cases H as u Hone Hrest.
    + apply fetch_user_tweets_shape in Hone as [_ Hq]. apply IH in Hrest.
      destruct r as [a|e|]; auto.
      * apply Forall_app; auto.
      * destruct Hrest as (evs0 & ev & name' & Hin & -> & Hq0 & Hf).
        exists (evs1 ++ evs0), ev, name'. rewrite <- app_assoc.
        repeat split; auto. { right; auto. } apply Forall_app; auto.
    + subst r. apply fetch_user_tweets_shape in Hone as [_ Hq].
      destruct Hq as (evs0 & ev & -> & Hq0 & Hf).
      exists evs0, ev, name. repeat split; auto. left; auto.
    + apply fetch_user_tweets_shape in Hone as [_ []].
Qed.

(** C3, as the code has it. When a call fails while [main] processes a
    batch of subjects, the error is logged and raised again by
    [fetch_user_tweets] (or comes from [load_cookies]), it is caught by the
    handler of [main], which encloses the whole loop over the subjects:
    [main] logs it, closes the scraper and returns normally, and nothing
    else is done after the failed call; in particular no later subject of
    the batch is processed. *)
Theorem main_stops_at_first_failure (SCREEN_NAMES : list string)
    (s : Scraper Env) pre ev e post :
  snd (main_with SCREEN_NAMES s) = pre ++ ev :: post ->
  failure ev = Some e ->
  fst (fst (main_with SCREEN_NAMES s)) = Ok tt /\
  Forall quiet pre /\
  subjects post = [] /\
  (post = [LogErrorMain e; Close] \/
   exists screen_name,
     In screen_name SCREEN_NAMES /\
     post = [LogErrorFetching screen_name e; LogErrorMain e; Close]).
Proof.
  unfold main_with, try_finally, try_except. intros Hevs Hf. revert Hevs.
  set (batch := for_each SCREEN_NAMES _).
  destruct (bind (load_cookies "cookies.json") (fun _ => batch) s)
    as [[r1 s1] evs1] eqn:Eb.
  bind_cases Eb as u Hload Hbatch.
  - (* the cookies were loaded *)
    assert (Hq1 : Forall quiet evs0).
    { destruct (orderly_load_cookies _ _ _ _ _ Hload) as [_ Hq]. exact Hq. }
    apply batch_shape in Hbatch.
    destruct r1 as [a|e1|]; simpl.
    + intros Hevs. exfalso.
      eapply (quiet_trace_has_no_failure ((evs0 ++ evs2) ++ [Close])); eauto.
      apply Forall_app; split; [apply Forall_app; auto|repeat constructor].
    + destruct Hbatch as (evs3 & ev3 & name & Hin & -> & Hq3 & Hf3).
      intros Hevs.
      replace (((evs0 ++ evs3 ++ [ev3; LogErrorFetching name e1])
                  ++ [LogErrorMain e1]) ++ [Close])
        with ((evs0 ++ evs3) ++ ev3 ::
                [LogErrorFetching name e1; LogErrorMain e1; Close]) in Hevs
        by (repeat rewrite <- app_assoc; reflexivity).
      assert (Hq03 : Forall quiet (evs0 ++ evs3)) by (apply Forall_app; auto).
      assert (Htail : Forall quiet [LogErrorFetching name e1; LogErrorMain e1; Close])
        by (repeat constructor).
      destruct (failure_position _ _ _ _ _ _ _ Hq03 Htail Hevs Hf) as (-> & -> & ->).
      assert (e1 = e) by congruence. subst e1.
      repeat split; auto. right. exists name. auto.
    + contradiction.
  - (* [load_cookies] raised *)
    subst r1. simpl. intros Hevs.
    assert (Hq1 : exists evs0 ev0, evs1 = evs0 ++ [ev0] /\ Forall quiet evs0 /\
                                   failure ev0 = Some e0).
    { destruct (orderly_load_cookies _ _ _ _ _ Hload) as [_ Hq]. exact Hq. }
    destruct Hq1 as (evs0 & ev0 & -> & Hq0 & Hf0).
    replace (((evs0 ++ [ev0]) ++ [LogErrorMain e0]) ++ [Close])
      with (evs0 ++ ev0 :: [LogErrorMain e0; Close]) in Hevs
      by (repeat rewrite <- app_assoc; reflexivity).
    assert (Htail : Forall quiet [LogErrorMain e0; Close]) by (repeat constructor).
    destruct (failure_position _ _ _ _ _ _ _ Hq0 Htail Hevs Hf) as (-> & -> & ->).
    assert (e0 = e) by congruence. subst e0.
    repeat split; auto.
  - (* [load_cookies] does not loop *)
    exfalso. unfold load_cookies, collaborate in Hload.
    destruct (load_cookies_file _ _) as [[x|x] e']; discriminate.
Qed.

End ScraperFacts.

(** * The category loop: page sizes, termination, acquisitions *)

Section CategoryLoop.
Context {Env : Type} `{C : Collaborators Env}.

Lemma ceil_div_step (r : Z) :
  0 < r -> ceil_div r 20 = 1 + ceil_div (r - Z.min 20 r) 20.
Proof.
  intros Hr. unfold ceil_div.
  destruct (Z.min_spec 20 r) as [[Hlt ->] | [Hle ->]].
  - replace (r + 20 - 1) with ((r - 20 + 20 - 1) + 1 * 20) by lia.
    rewrite Z.div_add by lia. lia.
  - replace (r - r + 20 - 1) with 19 by lia.
    change (19 / 20) with 0.
    symmetry. apply Z.div_unique with (r := r - 1); lia.
Qed.

Lemma ceil_div_bounds (a : Z) :
  20 * (ceil_div a 20 - 1) < a <= 20 * ceil_div a 20.
Proof.
  unfold ceil_div.
  pose proof (Z.div_mod (a + 20 - 1) 20 ltac:(lia)).
  pose proof (Z.mod_pos_bound (a + 20 - 1) 20 ltac:(lia)).
  lia.
Qed.

Lemma last_default_irrelevant (ys : list Z) : forall y d d',
  last (y :: ys) d = last (y :: ys) d'.
Proof.
  induction ys as [|z zs IH]; intros y d d'; [reflexivity|].
  change (last (y :: z :: zs) d) with (last (z :: zs) d).
  change (last (y :: z :: zs) d') with (last (z :: zs) d').
  apply IH.
Qed.

Lemma last_cons_default (x : Z) (xs : list Z) (d : Z) :
  last (x :: xs) d = last xs x.
Proof.
  destruct xs as [|y ys]; [reflexivity|].
  change (last (x :: y :: ys) d) with (last (y :: ys) d).
  apply last_default_irrelevant.
Qed.

(** The loop against a source that fills every page. *)
Lemma while_fetching_full screen_name budget collection_name user tweet_type
    fuel : forall n cursor (s : Scraper Env),
  store_never_fails -> source_fills_pages ->
  1 <= limit s -> n <= budget ->
  (Z.to_nat (budget - n) <= fuel)%nat ->
  exists s' evs,
    while_fetching screen_name budget collection_name user tweet_type
      fuel n cursor s = (Ok tt, s', evs) /\
    Z.of_nat (List.length (page_requests evs)) = ceil_div (budget - n) 20 /\
    Z.of_nat (List.length (upserts evs)) = budget - n /\
    last (logged_counts evs) n = budget.
Proof.
  assert (Hdone : forall fuel n cursor (s : Scraper Env),
             n <= budget -> (n <? budget) = false ->
             exists s' evs,
               (if n <? budget
                then match fuel with
                     | O => out_of_fuel
                     | S fuel' =>
                         bind (fetch_batch screen_name budget collection_name
                                 user tweet_type n cursor)
                           (fun next =>
                              match next with
                              | None => ret tt
                              | Some (n', cursor') =>
                                  while_fetching screen_name budget
                                    collection_name user tweet_type fuel'
                                    n' cursor'
                              end)
                     end
                else ret tt) s = (Ok tt, s', evs) /\
               Z.of_nat (List.length (page_requests evs)) = ceil_div (budget - n) 20 /\
               Z.of_nat (List.length (upserts evs)) = budget - n /\
               last (logged_counts evs) n = budget).
  { intros fuel0 n cursor s Hle Hlt. rewrite Hlt. apply Z.ltb_ge in Hlt.
    assert (n = budget) by lia. subst n.
    exists s, []. replace (budget - budget) with 0 by lia.
    repeat split; reflexivity. }
  induction fuel as [|fuel IH]; intros n cursor s Hstore Hsource HL Hle Hfuel.
  - apply Hdone; auto. apply Z.ltb_ge. lia.
  - destruct (n <? budget) eqn:Hlt; [|apply Hdone; auto].
    simpl. rewrite Hlt. apply Z.ltb_lt in Hlt.
    set (count := Z.min 20 (budget - n)).
    assert (Hcount : 0 < count <= 20) by (unfold count; lia).
    destruct (Hsource (user_id user) tweet_type count cursor (env (after_wait s)) Hcount)
      as (page & e' & Hpage & Hlen & Hcur).
    destruct (fetch_batch_succeeds screen_name budget collection_name user
                tweet_type n cursor s page e' Hstore HL Hpage)
      as (s1 & evs1 & Hbatch & Hl1 & Hp1 & Hu1 & Hlg1).
    destruct (items page) as [|tweet rest] eqn:Hitems; [simpl in Hlen; lia|].
    destruct (next_cursor page) as [cursor'|]; [|congruence].
    set (n' := n + Z.of_nat (List.length (tweet :: rest))) in *.
    assert (Hn' : n' = n + count) by (unfold n'; lia).
    assert (HL1 : 1 <= limit s1) by lia.
    assert (Hle' : n' <= budget) by (unfold count in *; lia).
    assert (Hfuel' : (Z.to_nat (budget - n') <= fuel)%nat) by lia.
    destruct (IH n' cursor' s1 Hstore Hsource HL1 Hle' Hfuel')
      as (s2 & evs2 & Hloop & Hp2 & Hu2 & Hlg2).
    exists s2, (evs1 ++ evs2). split; [|repeat split].
    + eapply bind_ok; [exact Hbatch|exact Hloop].
    + rewrite page_requests_app, length_app, Hp1. simpl List.length.
      rewrite (ceil_div_step (budget - n)) by lia. fold count.
      replace (budget - n - count) with (budget - n') by lia. lia.
    + rewrite upserts_app, length_app, Hu1, length_map. rewrite <- Hitems in *.
      lia.
    + rewrite logged_counts_app, Hlg1. simpl app.
      rewrite last_cons_default. exact Hlg2.
Qed.

Lemma collaborate_events {A} (op : Env -> (exn + A) * Env) record
    (s : Scraper Env) :
  exists failed, snd (collaborate op record s) = [record failed].
Proof.
  unfold collaborate. destruct (op (env s)) as [[e|a] e']; simpl; eauto.
Qed.

(** With a positive limit, an iteration does request a page. *)
Lemma fetch_batch_first_request screen_name budget collection_name user
    tweet_type n cursor (s : Scraper Env) :
  1 <= limit s ->
  exists more,
    page_requests (snd (fetch_batch screen_name budget collection_name user
                          tweet_type n cursor s))
    = Z.min 20 (budget - n) :: more.
Proof.
  intros HL. destruct (wait_if_needed_ok s HL) as (o & Hw & _).
  unfold fetch_batch. unfold bind at 1. rewrite Hw.
  match goal with
  | |- context [bind ?m ?k (after_wait s)] =>
      destruct (bind_events_prefix m k (after_wait s)) as [more Hmore];
      destruct (collaborate_events
                  (get_user_tweets (user_id user) tweet_type
                     (Z.min 20 (budget - n)) cursor)
                  (GetUserTweets (user_id user) tweet_type
                     (Z.min 20 (budget - n)) cursor) (after_wait s))
        as [failed Hfailed];
      rewrite Hfailed in Hmore;
      destruct (bind m k (after_wait s)) as [[r2 s2] evs2]
  end.
  simpl in Hmore. subst evs2. simpl. eauto.
Qed.

Lemma while_fetching_first_request screen_name budget collection_name user
    tweet_type fuel n cursor (s : Scraper Env) :
  1 <= limit s -> n < budget ->
  exists more,
    page_requests (snd (while_fetching screen_name budget collection_name
                          user tweet_type (S fuel) n cursor s))
    = Z.min 20 (budget - n) :: more.
Proof.
  intros HL Hlt. apply Z.ltb_lt in Hlt. simpl. rewrite Hlt.
  destruct (fetch_batch_first_request screen_name budget collection_name user
              tweet_type n cursor s HL) as [more1 Hfirst].
  match goal with
  | |- context [bind ?m ?k s] =>
      destruct (bind_events_prefix m k s) as [more2 ->]
  end.
  rewrite page_requests_app, Hfirst. simpl. eauto.
Qed.

(** The case of the missing cursor that the code handles: an iteration of
    the category loop in which the source returns a non-empty page that has
    no attribute [next_cursor] ends the loop normally; the page was
    requested once, each of its items was handed to the store, in order, and
    no further page is requested.  The store is assumed not to fail and the
    limit to be positive.  A page that has the attribute with the value
    [None] is another case. *)
Theorem missing_cursor_ends_category screen_name max_tweets_per_type
    collection_name user tweet_type fuel n cursor (s : Scraper Env) page e' :
  store_never_fails -> 1 <= limit s ->
  n < max_tweets_per_type ->
  get_user_tweets (user_id user) tweet_type
    (Z.min 20 (max_tweets_per_type - n)) cursor (env (after_wait s))
    = (inr page, e') ->
  items page <> [] ->
  next_cursor page = None ->
  let run := while_fetching screen_name max_tweets_per_type collection_name
               user tweet_type (S fuel) n cursor s in
  fst (fst run) = Ok tt /\
  page_requests (snd run) = [Z.min 20 (max_tweets_per_type - n)] /\
  upserts (snd run) = map tweet_id (items page) /\
  logged_counts (snd run) = [n + Z.of_nat (List.length (items page))].
Proof.
  intros Hstore HL Hlt Hpage Hitems Hcur run.
  destruct (fetch_batch_succeeds screen_name max_tweets_per_type
              collection_name user tweet_type n cursor s page e' Hstore HL Hpage)
    as (s1 & evs1 & Hbatch & Hl1 & Hp1 & Hu1 & Hlg1).
  rewrite Hcur in Hbatch.
  assert (Hrun : run = (Ok tt, s1, evs1 ++ [])).
  { unfold run. simpl. apply Z.ltb_lt in Hlt. rewrite Hlt.
    eapply bind_ok; [exact Hbatch|].
    destruct (items page); reflexivity. }
  rewrite Hrun. simpl. rewrite app_nil_r.
  destruct (items page) as [|tweet rest] eqn:Hi; [congruence|].
  auto.
Qed.

(** C5. Pagination termination: for a positive budget, against a source
    that answers every request with exactly the number of items asked for
    and a continuation token, the category loop ends normally after
    requesting exactly ceil(budget / 20) pages and handing exactly [budget]
    items to the store, and its last log line counts [budget] items.  The
    store is assumed not to fail and the limit to be positive. *)
Theorem full_pages_exhaust_budget screen_name budget collection_name user
    tweet_type (s : Scraper Env) :
  0 < budget ->
  source_fills_pages -> store_never_fails -> 1 <= limit s ->
  let run := fetch_category screen_name budget collection_name user
               tweet_type s in
  let pages := Z.of_nat (List.length (page_requests (snd run))) in
  fst (fst run) = Ok tt /\
  pages = ceil_div budget 20 /\
  20 * (pages - 1) < budget <= 20 * pages /\
  Z.of_nat (List.length (upserts (snd run))) = budget /\
  last (logged_counts (snd run)) 0 = budget.
Proof.
  intros Hb Hsource Hstore HL run pages.
  destruct (while_fetching_full screen_name budget collection_name user
              tweet_type (Z.to_nat budget) 0 None s Hstore Hsource HL)
    as (s' & evs & Hrun & Hp & Hu & Hlg); try lia.
  replace (budget - 0) with budget in * by lia.
  assert (Hpages : pages = ceil_div budget 20).
  { unfold pages, run, fetch_category. rewrite Hrun. exact Hp. }
  split; [unfold run, fetch_category; rewrite Hrun; reflexivity|].
  split; [exact Hpages|]. split.
  { rewrite Hpages. apply ceil_div_bounds. }
  unfold run, fetch_category. rewrite Hrun. simpl. auto.
Qed.

(** C6, as the code has it. Every page request of the category loop asks
    for min(20, budget - items persisted so far) items.  With budget 5 the
    first request asks for min(20, 5) = 5 items, and it is the only request
    when the page it brings holds at least 5 items (the store not
    failing). *)
Theorem page_size_follows_progress screen_name collection_name user
    tweet_type (s : Scraper Env) :
  1 <= limit s ->
  (forall budget fuel n cursor,
      Forall (page_size_ok budget)
        (requests_with_progress n
           (snd (while_fetching screen_name budget collection_name user
                   tweet_type fuel n cursor s)))) /\
  (exists more,
      page_requests (snd (fetch_category screen_name 5 collection_name user
                            tweet_type s)) = 5 :: more) /\
  (forall page e',
      store_never_fails ->
      get_user_tweets (user_id user) tweet_type 5 None (env (after_wait s))
        = (inr page, e') ->
      5 <= Z.of_nat (List.length (items page)) ->
      page_requests (snd (fetch_category screen_name 5 collection_name user
                            tweet_type s)) = [5]).
Proof.
  intros HL. split; [|split].
  - intros budget fuel n cursor. apply while_fetching_page_sizes.
  - unfold fetch_category. change (Z.to_nat 5) with 5%nat.
    apply (while_fetching_first_request screen_name 5 collection_name user
             tweet_type 4 0 None s HL). lia.
  - intros page e' Hstore Hpage Hlen.
    destruct (fetch_batch_succeeds screen_name 5 collection_name user
                tweet_type 0 None s page e' Hstore HL Hpage)
      as (s1 & evs1 & Hbatch & Hl1 & Hp1 & Hu1 & Hlg1).
    unfold fetch_category. change (Z.to_nat 5) with 5%nat.
    assert (Hrun : while_fetching screen_name 5 collection_name user
                     tweet_type 5 0 None s = (Ok tt, s1, evs1 ++ [])).
    { cbn [while_fetching]. change (0 <? 5) with true. cbv iota.
      eapply bind_ok; [exact Hbatch|].
      destruct (items page) as [|tweet rest]; [reflexivity|].
      destruct (next_cursor page) as [cursor'|]; [|reflexivity].
      cbn [while_fetching].
      assert (Hge : (0 + Z.of_nat (List.length (tweet :: rest)) <? 5) = false)
        by (apply Z.ltb_ge; lia).
      rewrite Hge. reflexivity. }
    rewrite Hrun. simpl. rewrite app_nil_r. exact Hp1.
Qed.

End CategoryLoop.

(** * Runs in the scripted world *)

Section ScriptedRuns.
Import Scripted.
Local Open Scope string_scope.

Lemma scripted_store_never_fails page_cap bad :
  store_never_fails (C := world page_cap bad).
Proof. intros collection id data e. reflexivity. Qed.

Lemma scripted_source_fills_pages :
  source_fills_pages (C := world 20 None).
Proof.
  intros user tweet_type count cursor e Hcount.
  eexists _, _. split; [reflexivity|]. split; [|discriminate].
  simpl. unfold tweets_from. rewrite length_map, length_seq. lia.
Qed.

(** C3, as stated, fails. Batch ["A"; "B"], the page request for the
    replies of "A" failing: [fetch_user_tweets] logs the error for "A", and
    "B", the next subject of the batch, is not processed at all - its user
    is never resolved, and the only items stored are the five tweets of
    "A". *)
Lemma later_subject_not_processed :
  let run := main_with (C := world 20 (Some (1, "Replies"))) ["A"; "B"]
               (TwitterScraper_init 0) in
  In (LogErrorFetching "A" down) (snd run) /\
  subjects (snd run) = ["A"] /\
  ~ In "B" (subjects (snd run)) /\
  upserts (snd run) = [0; 1; 2; 3; 4].
Proof.
  vm_compute. repeat split.
  - do 24 right. left. reflexivity.
  - intros [H | []]. discriminate H.
Qed.

Lemma main_stops_at_first_failure_witness :
  let run := main_with (C := world 20 (Some (1, "Replies"))) ["A"; "B"]
               (TwitterScraper_init 0) in
  fst (fst run) = Ok tt /\
  Forall quiet (firstn 23 (snd run)) /\
  subjects [LogErrorFetching "A" down; LogErrorMain down; Close] = [] /\
  ([LogErrorFetching "A" down; LogErrorMain down; Close]
     = [LogErrorMain down; Close] \/
   exists screen_name,
     In screen_name ["A"; "B"] /\
     [LogErrorFetching "A" down; LogErrorMain down; Close]
       = [LogErrorFetching screen_name down; LogErrorMain down; Close]).
Proof.
  apply (main_stops_at_first_failure (C := world 20 (Some (1, "Replies")))
           ["A"; "B"] (TwitterScraper_init 0)
           (firstn 23 (snd (main_with (C := world 20 (Some (1, "Replies")))
                              ["A"; "B"] (TwitterScraper_init 0))))
           (GetUserTweets 1 "Replies" 5 None (Some down)) down
           [LogErrorFetching "A" down; LogErrorMain down; Close]);
    reflexivity.
Defined.

Lemma fetch_user_tweets_aborts_on_error_witness :
  let run := fetch_user_tweets (C := world 20 (Some (1, "Tweets")))
               "A" None 5 "tweets" (TwitterScraper_init 0) in
  fst (fst run) = Raise down /\
  [LogErrorFetching "A" down] = [LogErrorFetching "A" down] /\
  Forall quiet [Acquire (RateLimiter.Returned None); GetUser "A" None;
                LogFetching "A"; Acquire (RateLimiter.Returned None)].
Proof.
  apply (fetch_user_tweets_aborts_on_error (C := world 20 (Some (1, "Tweets")))
           "A" None 5 "tweets" (TwitterScraper_init 0)
           [Acquire (RateLimiter.Returned None); GetUser "A" None;
            LogFetching "A"; Acquire (RateLimiter.Returned None)]
           (GetUserTweets 1 "Tweets" 5 None (Some down)) down
           [LogErrorFetching "A" down]);
    reflexivity.
Defined.

Lemma missing_cursor_ends_category_witness :
  let run := while_fetching (C := last_page_world 3) "A" 45 "tweets" alice
               "Tweets" 1 0 None (TwitterScraper_init 0) in
  fst (fst run) = Ok tt /\
  page_requests (snd run) = [Z.min 20 (45 - 0)] /\
  upserts (snd run) = map tweet_id (tweets_from (100 * 0) 3) /\
  logged_counts (snd run) = [0 + Z.of_nat (List.length (tweets_from (100 * 0) 3))].
Proof.
  apply (missing_cursor_ends_category (C := last_page_world 3) "A" 45 "tweets"
           alice "Tweets" 0%nat 0 None (TwitterScraper_init 0)
           (mkPage (tweets_from (100 * 0) 3) None) (0 + 1)).
  - intros collection id data e. reflexivity.
  - vm_compute. discriminate.
  - lia.
  - reflexivity.
  - discriminate.
  - reflexivity.
Defined.

Lemma full_pages_exhaust_budget_witness :
  let run := fetch_category (C := world 20 None) "A" 45 "tweets" alice
               "Tweets" (TwitterScraper_init 0) in
  let pages := Z.of_nat (List.length (page_requests (snd run))) in
  fst (fst run) = Ok tt /\
  pages = ceil_div 45 20 /\
  20 * (pages - 1) < 45 <= 20 * pages /\
  Z.of_nat (List.length (upserts (snd run))) = 45 /\
  last (logged_counts (snd run)) 0 = 45.
Proof.
  apply (full_pages_exhaust_budget (C := world 20 None) "A" 45 "tweets" alice
           "Tweets" (TwitterScraper_init 0)).
  - lia.
  - exact scripted_source_fills_pages.
  - exact (scripted_store_never_fails 20 None).
  - vm_compute. discriminate.
Defined.

(** C6, as stated, fails. Budget 5, against a source that returns two
    items per page and a continuation token: three pages are requested, of
    sizes 5, 3 and 1. *)
Lemma short_pages_need_three_requests :
  page_requests
    (snd (fetch_category (C := world 2 None) "A" 5 "tweets" alice "Tweets"
            (TwitterScraper_init 0))) = [5; 3; 1].
Proof. reflexivity. Qed.

Lemma page_size_follows_progress_witness :
  Forall (page_size_ok 5)
    (requests_with_progress 0
       (snd (while_fetching (C := world 2 None) "A" 5 "tweets" alice "Tweets"
               5 0 None (TwitterScraper_init 0)))) /\
  (exists more,
      page_requests
        (snd (fetch_category (C := world 2 None) "A" 5 "tweets" alice
                "Tweets" (TwitterScraper_init 0))) = 5 :: more) /\
  page_requests
    (snd (fetch_category (C := world 20 None) "A" 5 "tweets" alice "Tweets"
            (TwitterScraper_init 0))) = [5].
Proof.
  assert (HL : 1 <= limit (TwitterScraper_init 0))
    by (vm_compute; discriminate).
  destruct (page_size_follows_progress (C := world 2 None) "A" "tweets" alice
              "Tweets" (TwitterScraper_init 0) HL) as (Hall & Hfirst & _).
  destruct (page_size_follows_progress (C := world 20 None) "A" "tweets" alice
              "Tweets" (TwitterScraper_init 0) HL) as (_ & _ & Honly).
  split; [apply Hall|]. split; [exact Hfirst|].
  apply (Honly (mkPage (tweets_from (100 * 0) 5) (Some (Some "next"))) (0 + 1)).
  - exact (scripted_store_never_fails 20 None).
  - reflexivity.
  - vm_compute. discriminate.
Defined.

End ScriptedRuns.

(** * The rate limiter at its edges *)

Section LimiterEdges.
Import RateLimiter.

Lemma prune_repeat_same (W now : Z) (k : nat) :
  0 < W -> prune W now (repeat now k) = repeat now k.
Proof.
  intros HW. unfold prune. induction k as [|k IH]; simpl; [reflexivity|].
  replace (now - now) with 0 by lia.
  apply Z.ltb_lt in HW. rewrite HW, IH. reflexivity.
Qed.

Lemma prune_repeat_expired (W t now : Z) (k : nat) :
  t + W <= now -> prune W now (repeat t k) = [].
Proof.
  intros Hexp. unfold prune. induction k as [|k IH]; simpl; [reflexivity|].
  assert (Hout : (now - t <? W) = false) by (apply Z.ltb_ge; lia).
  rewrite Hout. exact IH.
Qed.

Lemma completions_app (a : list Z) : forall st b,
  completions st (a ++ b) = completions st a ++ completions (run st a) b.
Proof.
  induction a as [|now a IH]; intros st b; simpl; [reflexivity|].
  rewrite IH. reflexivity.
Qed.

Lemma sequential_join (a : list Z) : forall st b,
  sequential st a = true -> sequential (run st a) b = true ->
  sequential st (a ++ b) = true.
Proof.
  induction a as [|now a IH]; intros st b Ha Hb; simpl in *; [exact Hb|].
  apply andb_prop in Ha as [Hnow Ha]. rewrite Hnow. simpl. apply IH; assumption.
Qed.

Lemma run_app (a : list Z) (st : run_state) (b : list Z) :
  run st (a ++ b) = run (run st a) b.
Proof. unfold run. apply fold_left_app. Qed.

(** Calls entered at the instant of the timestamps already recorded, while
    there is room under the limit. *)
Lemma burst_calls (L : Z) (W now : Z) (k : nat) : forall st j,
  0 < W ->
  limiter st = mk L W (repeat now j) ->
  clock st = now ->
  Z.of_nat (j + k) <= L ->
  run st (repeat now k) =
    mk_run (mk L W (repeat now (j + k))) (history st ++ repeat now k) now /\
  completions st (repeat now k) = repeat now k /\
  sequential st (repeat now k) = true.
Proof.
  induction k as [|k IH]; intros st j HW Hlim Hclock Hroom; simpl.
  - rewrite Nat.add_0_r, app_nil_r. destruct st as [lim hist c]. simpl in *.
    subst. auto.
  - assert (Hcall : call st now =
                      mk_run (mk L W (repeat now (S j))) (history st ++ [now]) now).
    { unfold call, wait_if_needed. rewrite Hlim. simpl requests. simpl window_size.
      simpl requests_per_window. rewrite prune_repeat_same by exact HW.
      rewrite repeat_length.
      assert (Hlt : (L <=? Z.of_nat j) = false) by (apply Z.leb_gt; lia).
      rewrite Hlt. unfold set_requests. simpl.
      rewrite <- repeat_cons. simpl. f_equal. lia. }
    rewrite Hcall.
    destruct (IH (mk_run (mk L W (repeat now (S j))) (history st ++ [now]) now)
                (S j) HW eq_refl eq_refl) as (Hrun & Hcomp & Hseq).
    { rewrite Nat.add_succ_r in Hroom. exact Hroom. }
    simpl history in Hrun. rewrite Hrun, Hcomp, Hseq. simpl.
    rewrite Nat.add_succ_r, <- app_assoc. simpl.
    repeat split; try reflexivity.
    rewrite Hclock. apply andb_true_intro. split; [apply Z.leb_refl|reflexivity].
Qed.

(** The call that follows a burst filling the limit. *)
Lemma call_after_full_burst (L : nat) (W t : Z) :
  (1 <= L)%nat -> 0 < W ->
  wait_if_needed (mk (Z.of_nat L) W (repeat t L)) t =
    (mk (Z.of_nat L) W (repeat t L), Returned (Some W)).
Proof.
  intros HL HW.
  unfold wait_if_needed. simpl. rewrite prune_repeat_same by exact HW.
  rewrite repeat_length, Z.leb_refl.
  destruct L as [|l]; [lia|]. simpl.
  replace (W - (t - t)) with W by lia.
  apply Z.ltb_lt in HW. rewrite HW. unfold set_requests. simpl.
  rewrite <- repeat_cons. reflexivity.
Qed.

(** X1. A limiter whose limit is zero or negative never admits a call: in
    every run each call raises [IndexError], no timestamp is ever recorded,
    and the list stays empty. *)
Theorem nonpositive_limit_always_raises (L W t0 : Z) (nows : list Z) (now : Z) :
  L <= 0 ->
  let st := run (start L W t0) nows in
  limiter st = init L W /\
  history st = [] /\
  wait_if_needed (limiter st) now = (init L W, RaisedIndexError).
Proof.
  intros HL st.
  assert (Hraise : forall t, wait_if_needed (init L W) t = (init L W, RaisedIndexError)).
  { intros t. unfold wait_if_needed, init. simpl.
    assert (Hfull : (L <=? 0) = true) by (apply Z.leb_le; lia).
    rewrite Hfull. reflexivity. }
  assert (Hrun : forall ns c, exists c',
             run (mk_run (init L W) [] c) ns = mk_run (init L W) [] c').
  { induction ns as [|t ns IH]; intros c; [exists c; reflexivity|].
    change (run (mk_run (init L W) [] c) (t :: ns))
      with (run (call (mk_run (init L W) [] c) t) ns).
    unfold call. simpl limiter. rewrite Hraise. simpl. apply IH. }
  unfold st, start. destruct (Hrun nows t0) as [c' ->]. simpl. auto.
Qed.

Lemma nonpositive_limit_always_raises_witness :
  let st := run (start 0 60 0) [0; 5; 90] in
  limiter st = init 0 60 /\
  history st = [] /\
  wait_if_needed (limiter st) 100 = (init 0 60, RaisedIndexError).
Proof. apply (nonpositive_limit_always_raises 0 60 0 [0; 5; 90] 100). lia. Defined.

(** X2. A call that finds the limit reached always suspends: every
    timestamp kept by the pruning is less than a window old, so the delay of
    line 36 is positive and the test of line 37 cannot fail; the oldest
    timestamp is never dropped without waiting. *)
Theorem full_limiter_suspends (self : t) (now oldest : Z) (rest : list Z) :
  prune (window_size self) now (requests self) = oldest :: rest ->
  requests_per_window self <= Z.of_nat (List.length (oldest :: rest)) ->
  0 < window_size self - (now - oldest) /\
  wait_if_needed self now =
    (set_requests self (rest ++ [now]),
     Returned (Some (window_size self - (now - oldest)))).
Proof.
  intros Hpruned Hfull.
  assert (Hpos : 0 < window_size self - (now - oldest)).
  { assert (Hin : In oldest (prune (window_size self) now (requests self)))
      by (rewrite Hpruned; left; reflexivity).
    unfold prune in Hin. apply filter_In in Hin as [_ Hlt].
    apply Z.ltb_lt in Hlt. lia. }
  split; [exact Hpos|].
  unfold wait_if_needed. rewrite Hpruned.
  apply Z.leb_le in Hfull. rewrite Hfull.
  apply Z.ltb_lt in Hpos. rewrite Hpos. reflexivity.
Qed.

Lemma full_limiter_suspends_witness :
  0 < window_size (mk 2 60 [3; 10; 50]) - (69 - 10) /\
  wait_if_needed (mk 2 60 [3; 10; 50]) 69 =
    (set_requests (mk 2 60 [3; 10; 50]) ([50] ++ [69]),
     Returned (Some (window_size (mk 2 60 [3; 10; 50]) - (69 - 10)))).
Proof.
  apply (full_limiter_suspends (mk 2 60 [3; 10; 50]) 69 10 [50]).
  - reflexivity.
  - simpl. lia.
Defined.

(** X3. Burst capacity: on a fresh limiter with limit [L >= 1] and a
    positive window, [L] calls entered at the same instant all return at
    once and are all recorded, and the next call entered at that instant is
    suspended for exactly the window. *)
Theorem burst_fills_limit (L : nat) (W t : Z) :
  (1 <= L)%nat -> 0 < W ->
  let st := run (start (Z.of_nat L) W t) (repeat t L) in
  limiter st = mk (Z.of_nat L) W (repeat t L) /\
  completions (start (Z.of_nat L) W t) (repeat t L) = repeat t L /\
  wait_if_needed (limiter st) t =
    (mk (Z.of_nat L) W (repeat t L), Returned (Some W)).
Proof.
  intros HL HW st.
  destruct (burst_calls (Z.of_nat L) W t L (start (Z.of_nat L) W t) 0 HW
              eq_refl eq_refl) as (Hrun & Hcomp & _); [simpl; lia|].
  simpl in Hrun. unfold st. rewrite Hrun. simpl limiter.
  split; [reflexivity|]. split; [exact Hcomp|].
  apply call_after_full_burst; assumption.
Qed.

Lemma burst_fills_limit_witness :
  let st := run (start (Z.of_nat 3) 60 7) (repeat 7 3) in
  limiter st = mk (Z.of_nat 3) 60 (repeat 7 3) /\
  completions (start (Z.of_nat 3) 60 7) (repeat 7 3) = repeat 7 3 /\
  wait_if_needed (limiter st) 7 = (mk (Z.of_nat 3) 60 (repeat 7 3), Returned (Some 60)).
Proof. apply (burst_fills_limit 3 60 7); lia. Defined.

(** X4. With a window of zero or less the limiter never delays: for a
    positive limit and a clock reading not earlier than the recorded
    timestamps, a call returns at once and leaves its own timestamp as the
    only one recorded. *)
Theorem nonpositive_window_never_delays (self : t) (now : Z) :
  window_size self <= 0 ->
  1 <= requests_per_window self ->
  Forall (fun r => r <= now) (requests self) ->
  wait_if_needed self now = (set_requests self [now], Returned None).
Proof.
  intros HW HL Hpast.
  assert (Hempty : prune (window_size self) now (requests self) = []).
  { unfold prune. induction Hpast as [|r rs Hr _ IH]; simpl; [reflexivity|].
    assert (Hout : (now - r <? window_size self) = false) by (apply Z.ltb_ge; lia).
    rewrite Hout. exact IH. }
  unfold wait_if_needed. rewrite Hempty. simpl.
  assert (Hroom : (requests_per_window self <=? 0) = false) by (apply Z.leb_gt; lia).
  rewrite Hroom. reflexivity.
Qed.

Lemma nonpositive_window_never_delays_witness :
  wait_if_needed (mk 1 0 [4; 4]) 4 = (set_requests (mk 1 0 [4; 4]) [4], Returned None).
Proof.
  apply (nonpositive_window_never_delays (mk 1 0 [4; 4]) 4).
  - simpl. lia.
  - simpl. lia.
  - repeat constructor; lia.
Defined.

(** X5. The limit can be exceeded at a window boundary: after [L + 1] calls
    entered at instant [t] (the last one suspended until [t + W] but
    recorded at [t]), [L] further calls entered at [t + W] find every
    recorded timestamp expired and return at once, so that [L + 1] calls end
    at the instant [t + W]. *)
Theorem boundary_admits_one_more (L : nat) (W t : Z) :
  (1 <= L)%nat -> 0 < W ->
  let nows := repeat t (S L) ++ repeat (t + W) L in
  sequential (start (Z.of_nat L) W t) nows = true /\
  completions (start (Z.of_nat L) W t) nows = repeat t L ++ repeat (t + W) (S L).
Proof.
  intros HL HW nows.
  set (lim := Z.of_nat L).
  destruct (burst_calls lim W t L (start lim W t) 0 HW eq_refl eq_refl)
    as (Hrun1 & Hcomp1 & Hseq1); [unfold lim; simpl; lia|].
  simpl in Hrun1.
  pose proof (call_after_full_burst L W t HL HW) as Hnext. fold lim in Hnext.
  set (st1 := mk_run (mk lim W (repeat t L)) (repeat t L) t) in *.
  assert (Hcall1 : call st1 t = mk_run (mk lim W (repeat t L)) (repeat t L ++ [t]) (t + W)).
  { unfold call. simpl limiter. rewrite Hnext. reflexivity. }
  set (st2 := mk_run (mk lim W (repeat t L)) (repeat t L ++ [t]) (t + W)) in *.
  destruct L as [|l]; [lia|].
  assert (Hcall2 : call st2 (t + W) =
            mk_run (mk lim W (repeat (t + W) 1)) ((repeat t (S l) ++ [t]) ++ [t + W]) (t + W)).
  { unfold st2, call, wait_if_needed.
    cbn [limiter requests window_size requests_per_window].
    rewrite prune_repeat_expired by lia. simpl List.length.
    assert (Hroom : (lim <=? Z.of_nat 0) = false) by (apply Z.leb_gt; unfold lim; lia).
    rewrite Hroom. simpl. rewrite Z.add_0_r. reflexivity. }
  set (st3 := mk_run (mk lim W (repeat (t + W) 1))
                ((repeat t (S l) ++ [t]) ++ [t + W]) (t + W)) in *.
  destruct (burst_calls lim W (t + W) l st3 1 HW eq_refl eq_refl)
    as (Hrun3 & Hcomp3 & Hseq3); [unfold lim; lia|].
  assert (Hnows : nows = repeat t (S l) ++ [t] ++ [t + W] ++ repeat (t + W) l).
  { unfold nows. change (repeat t (S (S l))) with (t :: repeat t (S l)).
    rewrite repeat_cons, <- app_assoc. reflexivity. }
  rewrite Hnows. split.
  - apply sequential_join; [exact Hseq1|]. unfold run at 1. fold (run (start lim W t) (repeat t (S l))).
    rewrite Hrun1. fold st1. simpl.
    rewrite Hcall1. fold st2. rewrite Hcall2. fold st3. rewrite Hseq3.
    simpl. rewrite !Z.leb_refl. reflexivity.
  - rewrite completions_app, Hcomp1, Hrun1. fold st1. simpl completions.
    rewrite Hcall1. fold st2. rewrite Hcall2. fold st3. rewrite Hcomp3.
    simpl. reflexivity.
Qed.

Lemma boundary_admits_one_more_witness :
  let nows := repeat 0 (S 2) ++ repeat (0 + 60) 2 in
  sequential (start (Z.of_nat 2) 60 0) nows = true /\
  completions (start (Z.of_nat 2) 60 0) nows = repeat 0 2 ++ repeat (0 + 60) (S 2).
Proof. apply (boundary_admits_one_more 2 60 0); lia. Defined.

Lemma history_of_run (L : Z) (nows : list Z) : forall st,
  1 <= L -> requests_per_window (limiter st) = L ->
  history (run st nows) = history st ++ nows.
Proof.
  induction nows as [|now rest IH]; intros st HL Hl; simpl.
  - rewrite app_nil_r. reflexivity.
  - assert (Hpos : 1 <= requests_per_window (limiter st)) by lia.
    destruct (limiter_never_raises (limiter st) now Hpos) as [slept Hs].
    pose proof (wait_if_needed_config (limiter st) now) as [Hc _].
    rewrite IH; auto.
    + unfold call. destruct (wait_if_needed (limiter st) now) as [self' o].
      simpl in *. subst o. simpl. rewrite <- app_assoc. reflexivity.
    + unfold call. destruct (wait_if_needed (limiter st) now) as [self' o].
      simpl in *. lia.
Qed.

Lemma run_limit (nows : list Z) : forall st,
  requests_per_window (limiter (run st nows)) = requests_per_window (limiter st).
Proof.
  induction nows as [|now rest IH]; intros st; simpl; [reflexivity|].
  rewrite IH. unfold call.
  pose proof (wait_if_needed_config (limiter st) now) as [Hc _].
  destruct (wait_if_needed (limiter st) now) as [self' o]. exact Hc.
Qed.

(** X14. A limiter with a positive limit refuses no call, whatever the
    clock readings: after any run, a call returns, and the value it read
    from the clock on entry is the newest element of [self.requests]. *)
Theorem positive_limit_records_every_call (L W t0 : Z) (nows : list Z) (now : Z) :
  1 <= L ->
  exists self' slept older,
    wait_if_needed (limiter (run (start L W t0) nows)) now
      = (self', Returned slept) /\
    requests self' = older ++ [now].
Proof.
  intros HL.
  pose proof (run_limit nows (start L W t0)) as Hl. simpl in Hl.
  set (self := limiter (run (start L W t0) nows)) in *.
  unfold wait_if_needed.
  destruct (requests_per_window self <=? _) eqn:Hfull.
  - destruct (prune (window_size self) now (requests self)) as [|oldest kept].
    + apply Z.leb_le in Hfull. simpl in Hfull. lia.
    + eexists _, _, kept. split; reflexivity.
  - eexists _, _, _. split; reflexivity.
Qed.

Lemma positive_limit_records_every_call_witness :
  exists self' slept older,
    wait_if_needed (limiter (run (start 2 60 0) [0; 0; 0; 60])) 61
      = (self', Returned slept) /\
    requests self' = older ++ [61].
Proof. apply (positive_limit_records_every_call 2 60 0 [0; 0; 0; 60] 61). lia. Defined.

(** Pruning a sorted list drops a prefix of it. *)
Lemma prune_drops_prefix (W now : Z) (rs : list Z) :
  StronglySorted Z.le rs ->
  exists dropped, rs = dropped ++ prune W now rs.
Proof.
  intros Hs. induction Hs as [|r rs Hrs IH Hall]; [exists []; reflexivity|].
  unfold prune. simpl. destruct (now - r <? W) eqn:Hkeep.
  - exists []. simpl. f_equal. symmetry.
    apply Z.ltb_lt in Hkeep. apply forallb_filter_id.
    apply forallb_forall. intros x Hx. rewrite Forall_forall in Hall.
    specialize (Hall x Hx). apply Z.ltb_lt. lia.
  - destruct IH as [dropped IH]. exists (r :: dropped). simpl. f_equal. exact IH.
Qed.

Lemma run_keeps_latest (nows : list Z) : forall st b,
  (exists old, history st = old ++ requests (limiter st)) ->
  StronglySorted Z.le (requests (limiter st)) ->
  Forall (fun r => r <= b) (requests (limiter st)) ->
  StronglySorted Z.le (b :: nows) ->
  exists old,
    history (run st nows) = old ++ requests (limiter (run st nows)).
Proof.
  induction nows as [|now rest IH]; intros st b Hsuf Hs Hb Hn; simpl; auto.
  inversion Hn as [|? ? Hn' Hbn]; subst. inversion Hbn as [|? ? Hb1 Hb2]; subst.
  assert (Hb' : Forall (fun r => r <= now) (requests (limiter st))).
  { rewrite Forall_forall in *. intros x Hx. specialize (Hb x Hx). lia. }
  destruct (wait_if_needed_sorted (limiter st) now Hs Hb') as [Hs1 Hb1'].
  apply (IH (call st now) now).
  - destruct Hsuf as [old Hold].
    destruct (prune_drops_prefix (window_size (limiter st)) now _ Hs)
      as [dropped Hdrop].
    unfold call, wait_if_needed.
    destruct (_ <=? _).
    + destruct (prune _ _ _) as [|oldest kept]; simpl.
      * exists (history st). rewrite !app_nil_r. reflexivity.
      * exists (old ++ dropped ++ [oldest]). rewrite Hold, Hdrop.
        rewrite <- !app_assoc. reflexivity.
    + simpl. exists (old ++ dropped). rewrite Hold. rewrite Hdrop at 1.
      rewrite <- !app_assoc. reflexivity.
  - unfold call. destruct (wait_if_needed (limiter st) now); simpl in *. auto.
  - unfold call. destruct (wait_if_needed (limiter st) now); simpl in *. auto.
  - exact Hn'.
Qed.

(** X15. The limiter forgets the oldest calls first: for a positive limit
    and non-decreasing clock readings, the list [requests] after a run is a
    final segment of the list of the clock readings of its calls. *)
Theorem requests_are_latest_calls (L W t0 : Z) (nows : list Z) :
  1 <= L ->
  Sorted Z.le nows ->
  exists old, nows = old ++ requests (limiter (run (start L W t0) nows)).
Proof.
  intros HL Hn.
  pose proof (history_of_run L nows (start L W t0) HL eq_refl) as Hhist.
  simpl in Hhist.
  apply Sorted_StronglySorted in Hn; [|intros x y z; apply Z.le_trans].
  assert (Hsuf : exists old,
             history (run (start L W t0) nows)
               = old ++ requests (limiter (run (start L W t0) nows))).
  { destruct nows as [|now rest]; [exists []; reflexivity|].
    apply (run_keeps_latest (now :: rest) (start L W t0) now).
    - exists []. reflexivity.
    - constructor.
    - constructor.
    - apply SSorted_cons; [exact Hn|].
      apply Forall_cons; [apply Z.le_refl|].
      inversion Hn; subst. assumption. }
  destruct Hsuf as [old Hold]. exists old. rewrite <- Hold. symmetry. exact Hhist.
Qed.

Lemma requests_are_latest_calls_witness :
  exists old,
    [0; 5; 5; 70; 71] = old ++ requests (limiter (run (start 2 60 0) [0; 5; 5; 70; 71])).
Proof.
  apply (requests_are_latest_calls 2 60 0 [0; 5; 5; 70; 71]).
  - lia.
  - repeat constructor; lia.
Defined.

End LimiterEdges.

(** * The category loop within its budget *)

Section CategoryBounds.
Context {Env : Type} `{C : Collaborators Env}.
Variable screen_name : string.
Variable max_tweets_per_type : Z.
Variable collection_name : string.
Variable user : User.
Variable tweet_type : string.

Lemma requests_with_progress_length (evs : list event) : forall done,
  List.length (requests_with_progress done evs) = List.length (page_requests evs).
Proof.
  induction evs as [|ev evs IH]; intros done; [reflexivity|].
  destruct ev; simpl; auto.
Qed.

Lemma no_progress_no_requests (evs : list event) :
  (forall done, requests_with_progress done evs = []) -> page_requests evs = [].
Proof.
  intros H. apply length_zero_iff_nil.
  rewrite <- (requests_with_progress_length evs 0), (H 0). reflexivity.
Qed.

Lemma process_tweet_upserts tweet (s : Scraper Env) r s' evs :
  process_tweet collection_name tweet_type tweet s = (r, s', evs) ->
  (List.length (upserts evs) <= 1)%nat.
Proof.
  unfold process_tweet, fetch_tweet_details. intros H.
  bind_cases H as data Hdetails Hstore.
  - bind_cases Hdetails as u1 Hw1 Hbuild; try discriminate.
    bind_cases Hbuild as e1 Hget Hret; try discriminate.
    unfold get_env in Hget. unfold ret in Hret.
    inversion Hget; subst. inversion Hret; subst. clear Hget Hret.
    apply wait_if_needed_trace in Hw1 as [_ [o1 ->]].
    bind_cases Hstore as u2 Hw2 Hput;
      apply wait_if_needed_trace in Hw2 as [_ [o2 ->]]; simpl; try lia.
    apply collaborate_trace in Hput
      as [(a & _ & _ & ->) | (e & _ & _ & ->)]; simpl; lia.
  - bind_cases Hdetails as u1 Hw1 Hbuild; try discriminate.
    apply wait_if_needed_trace in Hw1 as [_ [o1 ->]]. simpl. lia.
  - bind_cases Hdetails as u1 Hw1 Hbuild; try discriminate.
    apply wait_if_needed_trace in Hw1 as [_ [o1 ->]]. simpl. lia.
Qed.

Lemma for_tweets_upserts tweets : forall n (s : Scraper Env) r s' evs,
  for_tweets collection_name tweet_type tweets n s = (r, s', evs) ->
  (List.length (upserts evs) <= List.length tweets)%nat.
Proof.
  induction tweets as [|tweet rest IH]; intros n s r s' evs H; simpl in H.
  - unfold ret in H. inversion H; subst. simpl. lia.
  - bind_cases H as u Hitem Hrest.
    + apply process_tweet_upserts in Hitem. apply IH in Hrest.
      rewrite upserts_app, length_app. simpl. lia.
    + apply process_tweet_upserts in Hitem. simpl. lia.
    + apply process_tweet_upserts in Hitem. simpl. lia.
Qed.

(** One iteration requests one page at most, and hands to the store no more
    items than the page holds. *)
Lemma fetch_batch_bounds n cursor (s : Scraper Env) r s' evs :
  fetch_batch screen_name max_tweets_per_type collection_name user tweet_type
    n cursor s = (r, s', evs) ->
  (List.length (page_requests evs) <= 1)%nat /\
  (source_honours_size ->
   Z.of_nat (List.length (upserts evs))
     <= Z.max 0 (Z.min 20 (max_tweets_per_type - n))).
Proof.
  unfold fetch_batch. intros H.
  bind_cases H as u Hwait Hfetch;
    apply wait_if_needed_trace in Hwait as [_ [o ->]];
    try (simpl; split; [lia | intros _; lia]).
  bind_cases Hfetch as tweets Hpage Hbody.
  - apply collaborate_trace in Hpage
      as [(a & Hop & [= <-] & ->) | (e & _ & [=] & _)].
    assert (Hsize : source_honours_size ->
              Z.of_nat (List.length (items tweets))
                <= Z.max 0 (Z.min 20 (max_tweets_per_type - n))).
    { intros Hh. eapply Hh. exact Hop. }
    destruct (items tweets) as [|tweet rest] eqn:Hitems.
    + unfold ret in Hbody. inversion Hbody; subst. simpl.
      split; [lia | intros _; lia].
    + match type of Hbody with
      | ?body ?sb = (_, _, ?evsb) =>
          assert (Hfor : exists r1 s1 evs1 more,
                     for_tweets collection_name tweet_type (tweet :: rest) n sb
                       = (r1, s1, evs1) /\
                     evsb = evs1 ++ more /\ page_requests more = [] /\
                     upserts more = [])
      end.
      { bind_cases Hbody as n1 Hfor Hlog.
        - bind_cases Hlog as u1 Hlog1 Hend; try discriminate.
          unfold log in Hlog1. inversion Hlog1; subst.
          eexists _, _, _, _. split; [exact Hfor|]. split; [reflexivity|].
          destruct (next_cursor tweets); unfold ret in Hend;
            inversion Hend; subst; auto.
        - eexists _, _, _, []. rewrite app_nil_r. eauto.
        - eexists _, _, _, []. rewrite app_nil_r. eauto. }
      destruct Hfor as (rf & sf & evsf & more & Hfor & -> & Hpm & Hum).
      pose proof (for_tweets_upserts _ _ _ _ _ _ Hfor) as Hu.
      apply for_tweets_events in Hfor as [Hnone _].
      apply no_progress_no_requests in Hnone.
      simpl. rewrite page_requests_app, upserts_app, !length_app, Hnone, Hpm, Hum.
      simpl. split; [lia|]. intros Hh. specialize (Hsize Hh). simpl in *. lia.
  - apply collaborate_trace in Hpage
      as [(a & _ & _ & ->) | (e' & _ & _ & ->)];
      simpl; (split; [lia | intros _; lia]).
  - apply collaborate_trace in Hpage
      as [(a & _ & _ & ->) | (e' & _ & _ & ->)];
      simpl; (split; [lia | intros _; lia]).
Qed.

Lemma while_fetching_bounds fuel : forall n cursor (s : Scraper Env),
  let evs := snd (while_fetching screen_name max_tweets_per_type
                    collection_name user tweet_type fuel n cursor s) in
  (List.length (page_requests evs) <= Z.to_nat (max_tweets_per_type - n))%nat /\
  (source_honours_size ->
   Z.of_nat (List.length (upserts evs)) <= Z.max 0 (max_tweets_per_type - n)).
Proof.
  induction fuel as [|fuel IH]; intros n cursor s; simpl;
    destruct (n <? max_tweets_per_type) eqn:Hlt;
    try (simpl; split; [lia | intros _; lia]).
  apply Z.ltb_lt in Hlt.
  destruct (bind _ _ s) as [[r s'] evs] eqn:E. simpl.
  bind_cases E as next Hbatch Hloop.
  - pose proof (fetch_batch_events _ _ _ _ _ _ _ _ _ _ _ Hbatch) as [_ Hcount].
    destruct next as [[n' cursor']|].
    + pose proof (fetch_batch_progress _ _ _ _ _ _ _ _ _ _ _ _ Hbatch) as Hprog.
      apply fetch_batch_bounds in Hbatch as [Hp1 Hu1].
      specialize (Hcount n' cursor' eq_refl).
      destruct (IH n' cursor' s1) as [Hp2 Hu2]. rewrite Hloop in Hp2, Hu2.
      simpl in Hp2, Hu2.
      rewrite page_requests_app, upserts_app, !length_app. split; [lia|].
      intros Hh. specialize (Hu1 Hh). specialize (Hu2 Hh). lia.
    + apply fetch_batch_bounds in Hbatch as [Hp1 Hu1].
      unfold ret in Hloop. inversion Hloop; subst.
      rewrite !app_nil_r. split; [lia|]. intros Hh. specialize (Hu1 Hh). lia.
  - apply fetch_batch_bounds in Hbatch as [Hp1 Hu1].
    split; [lia|]. intros Hh. specialize (Hu1 Hh). lia.
  - apply fetch_batch_bounds in Hbatch as [Hp1 Hu1].
    split; [lia|]. intros Hh. specialize (Hu1 Hh). lia.
Qed.

End CategoryBounds.

(** * The shape of the traces *)

Section KeepsFacts.
Context {Env : Type} `{C : Collaborators Env}.
Variable P : list event -> Prop.
Hypothesis P_nil : P [].
Hypothesis P_app : forall evs1 evs2, P evs1 -> P evs2 -> P (evs1 ++ evs2).

Lemma keeps_ret {A} (a : A) : keeps P (ret a : M Env A).
Proof. intros s HL. simpl. auto. Qed.

Lemma keeps_raise {A} (e : exn) : keeps P (raise e : M Env A).
Proof. intros s HL. simpl. auto. Qed.

Lemma keeps_out_of_fuel {A} : keeps P (out_of_fuel : M Env A).
Proof. intros s HL. simpl. auto. Qed.

Lemma keeps_log (ev : event) : P [ev] -> keeps P (log ev : M Env unit).
Proof. intros Hev s HL. simpl. auto. Qed.

Lemma keeps_bind {A B} (m : M Env A) (f : A -> M Env B) :
  keeps P m -> (forall a, keeps P (f a)) -> keeps P (bind m f).
Proof.
  intros Hm Hf s HL. unfold bind. specialize (Hm s HL).
  destruct (m s) as [[r1 s1] evs1]. simpl in Hm. destruct Hm as [HP1 HL1].
  destruct r1 as [a|e|]; simpl; auto.
  specialize (Hf a s1 HL1). destruct (f a s1) as [[r2 s2] evs2].
  simpl in *. destruct Hf. auto.
Qed.

Lemma keeps_try_except {A} (m : M Env A) (handler : exn -> M Env A) :
  keeps P m -> (forall e, keeps P (handler e)) -> keeps P (try_except m handler).
Proof.
  intros Hm Hh s HL. unfold try_except. specialize (Hm s HL).
  destruct (m s) as [[r1 s1] evs1]. simpl in Hm. destruct Hm as [HP1 HL1].
  destruct r1 as [a|e|]; simpl; auto.
  specialize (Hh e s1 HL1). destruct (handler e s1) as [[r2 s2] evs2].
  simpl in *. destruct Hh. auto.
Qed.

Lemma keeps_try_finally {A} (m : M Env A) (cleanup : M Env unit) :
  keeps P m -> keeps P cleanup -> keeps P (try_finally m cleanup).
Proof.
  intros Hm Hc s HL. unfold try_finally. specialize (Hm s HL).
  destruct (m s) as [[r1 s1] evs1]. simpl in Hm. destruct Hm as [HP1 HL1].
  specialize (Hc s1 HL1). destruct (cleanup s1) as [[r2 s2] evs2].
  simpl in *. destruct Hc. auto.
Qed.

Lemma keeps_collaborate {A} (op : Env -> (exn + A) * Env)
    (record : option exn -> event) :
  (forall failed, P [record failed]) -> keeps P (collaborate op record).
Proof.
  intros Hrec s HL. unfold collaborate.
  destruct (op (env s)) as [[e|a] e']; simpl; auto.
Qed.

(** A call to a collaborator made after a limiter acquisition. *)
Lemma keeps_call {A B} (op : Env -> (exn + A) * Env)
    (record : option exn -> event) (k : A -> M Env B) :
  (forall slept failed,
      P [Acquire (RateLimiter.Returned slept); record failed]) ->
  (forall a, keeps P (k a)) ->
  keeps P (bind wait_if_needed (fun _ => bind (collaborate op record) k)).
Proof.
  intros Hpiece Hk s HL.
  destruct (wait_if_needed_ok s HL) as (slept & Hw & Hl).
  assert (HL1 : forall e' : Env,
             1 <= limit (mkScraper e' (rate_limiter (after_wait s)))).
  { intros e'. unfold limit in *. cbn [rate_limiter]. lia. }
  destruct (bind wait_if_needed _ s) as [[r s'] evs] eqn:E. cbn [fst snd].
  unfold bind at 1 in E. rewrite Hw in E. unfold bind, collaborate in E.
  destruct (op (env (after_wait s))) as [[e|a] e'].
  - inversion E; subst. split; [apply Hpiece | apply HL1].
  - specialize (Hk a _ (HL1 e')).
    destruct (k a (mkScraper e' (rate_limiter (after_wait s)))) as [[r2 s2] evs2].
    inversion E; subst. cbn [fst snd] in Hk. destruct Hk as [HP2 HL2].
    split; [|exact HL2].
    change (P ([Acquire (RateLimiter.Returned slept); record None] ++ evs2)).
    apply P_app; auto.
Qed.

Lemma keeps_for_each {A} (xs : list A) (body : A -> M Env unit) :
  (forall x, In x xs -> keeps P (body x)) -> keeps P (for_each xs body).
Proof.
  induction xs as [|x rest IH]; intros Hbody; simpl.
  - apply keeps_ret.
  - apply keeps_bind.
    + apply Hbody. left. reflexivity.
    + intros _. apply IH. intros y Hy. apply Hbody. right. exact Hy.
Qed.

End KeepsFacts.

Section TraceShape.
Context {Env : Type} `{C : Collaborators Env}.

Lemma stepwise_one names tweet_types collection piece :
  step names tweet_types collection piece ->
  stepwise names tweet_types collection piece.
Proof.
  intros Hp. rewrite <- (app_nil_r piece).
  apply stepwise_cons; [exact Hp | apply stepwise_nil].
Qed.

Lemma stepwise_app names tweet_types collection evs1 evs2 :
  stepwise names tweet_types collection evs1 ->
  stepwise names tweet_types collection evs2 ->
  stepwise names tweet_types collection (evs1 ++ evs2).
Proof.
  intros H1 H2. induction H1 as [|piece evs Hp _ IH]; [exact H2|].
  rewrite <- app_assoc. apply stepwise_cons; assumption.
Qed.

Lemma stepwise_weaken names names' tweet_types tweet_types' collection evs :
  incl names names' -> incl tweet_types tweet_types' ->
  stepwise names tweet_types collection evs ->
  stepwise names' tweet_types' collection evs.
Proof.
  intros Hn Ht H. induction H as [|piece evs Hp _ IH]; [apply stepwise_nil|].
  apply stepwise_cons; [|exact IH].
  destruct Hp.
  - apply step_user. auto.
  - apply step_page. auto.
  - eapply step_store; eauto.
  - apply step_note. assumption.
Qed.

Section OneCategory.
Variable names tweet_types : list string.
Variable screen_name : string.
Variable max_tweets_per_type : Z.
Variable collection_name : string.
Variable user : User.
Variable tweet_type : string.
Hypothesis tweet_type_listed : In tweet_type tweet_types.

Lemma keeps_process_tweet tweet :
  keeps (stepwise names tweet_types collection_name)
    (process_tweet collection_name tweet_type tweet).
Proof.
  intros s HL.
  destruct (wait_if_needed_ok s HL) as (o1 & Hw1 & Hl1).
  assert (HL1 : 1 <= limit (after_wait s)) by lia.
  destruct (wait_if_needed_ok _ HL1) as (o2 & Hw2 & Hl2).
  unfold process_tweet, fetch_tweet_details, bind, get_env, ret.
  rewrite Hw1, Hw2. unfold collaborate.
  match goal with
  | |- context [update_one ?c ?i ?d ?e] =>
      destruct (update_one c i d e) as [[e1|u1] e1']
  end; simpl;
    (split;
     [ apply stepwise_one;
       apply (step_store names tweet_types collection_name o1 o2 tweet_type
                (set_tweet_type
                   (mkTweetData (tweet_id tweet) (tweet_attrs tweet)
                      (utcnow (env (after_wait s))) (tweet_user tweet) None)
                   tweet_type));
       [exact tweet_type_listed | reflexivity]
     | unfold limit in *; simpl; lia ]).
Qed.

Lemma keeps_for_tweets tweets : forall n,
  keeps (stepwise names tweet_types collection_name)
    (for_tweets collection_name tweet_type tweets n).
Proof.
  induction tweets as [|tweet rest IH]; intros n; simpl.
  - apply keeps_ret. apply stepwise_nil.
  - apply keeps_bind; [apply stepwise_app | apply keeps_process_tweet | auto].
Qed.

Lemma keeps_fetch_batch n cursor :
  keeps (stepwise names tweet_types collection_name)
    (fetch_batch screen_name max_tweets_per_type collection_name
                  user tweet_type n cursor).
Proof.
  unfold fetch_batch.
  apply keeps_call; [apply stepwise_app | | ].
  - intros slept failed. apply stepwise_one. apply step_page.
    exact tweet_type_listed.
  - intros tweets. destruct (items tweets) as [|tweet rest].
    + apply keeps_ret. apply stepwise_nil.
    + apply keeps_bind; [apply stepwise_app | apply keeps_for_tweets |].
      intros n'. apply keeps_bind; [apply stepwise_app | |].
      * apply keeps_log. apply stepwise_one. apply step_note. reflexivity.
      * intros _. destruct (next_cursor tweets);
          apply keeps_ret; apply stepwise_nil.
Qed.

Lemma keeps_while_fetching fuel : forall n cursor,
  keeps (stepwise names tweet_types collection_name)
    (while_fetching screen_name max_tweets_per_type collection_name
                  user tweet_type fuel n cursor).
Proof.
  induction fuel as [|fuel IH]; intros n cursor; simpl;
    destruct (n <? max_tweets_per_type);
    try (apply keeps_ret; apply stepwise_nil);
    try (apply keeps_out_of_fuel; apply stepwise_nil).
  apply keeps_bind; [apply stepwise_app | apply keeps_fetch_batch |].
  intros [[n' cursor']|]; [apply IH | apply keeps_ret; apply stepwise_nil].
Qed.

Lemma keeps_fetch_category :
  keeps (stepwise names tweet_types collection_name)
    (fetch_category screen_name max_tweets_per_type collection_name
                  user tweet_type).
Proof. apply keeps_while_fetching. Qed.

End OneCategory.

End TraceShape.

Section WholeRuns.
Context {Env : Type} `{C : Collaborators Env}.

Lemma keeps_fetch_user_tweets names screen_name tweet_types
    max_tweets_per_type collection_name :
  In screen_name names ->
  keeps (stepwise names (requested tweet_types) collection_name)
    (fetch_user_tweets screen_name tweet_types max_tweets_per_type
       collection_name).
Proof.
  intros Hname. unfold fetch_user_tweets.
  change (match tweet_types with
          | Some given => given
          | None => default_tweet_types
          end) with (requested tweet_types).
  apply keeps_try_except; [apply stepwise_app | |].
  - apply keeps_call; [apply stepwise_app | |].
    + intros slept failed. apply stepwise_one. apply step_user. exact Hname.
    + intros user. apply keeps_bind; [apply stepwise_app | |].
      * apply keeps_log. apply stepwise_one. apply step_note. reflexivity.
      * intros _. apply keeps_for_each; [apply stepwise_nil | apply stepwise_app |].
        intros tweet_type Hin. apply keeps_fetch_category. exact Hin.
  - intros e. apply keeps_bind; [apply stepwise_app | |].
    + apply keeps_log. apply stepwise_one. apply step_note. reflexivity.
    + intros _. apply keeps_raise. apply stepwise_nil.
Qed.

Lemma keeps_main_with SCREEN_NAMES :
  keeps (stepwise SCREEN_NAMES (requested None) "tweets")
    (main_with SCREEN_NAMES).
Proof.
  unfold main_with.
  apply keeps_try_finally; [apply stepwise_app | |].
  - apply keeps_try_except; [apply stepwise_app | |].
    + apply keeps_bind; [apply stepwise_app | |].
      * unfold load_cookies. apply keeps_collaborate.
        intros failed. apply stepwise_one. apply step_note. reflexivity.
      * intros _. apply keeps_for_each; [apply stepwise_nil | apply stepwise_app |].
        intros screen_name Hin.
        apply (keeps_fetch_user_tweets SCREEN_NAMES screen_name
                 (Some ["Tweets"; "Replies"; "Media"; "Likes"]%string) 5 "tweets" Hin).
    + intros e. apply keeps_log. apply stepwise_one. apply step_note. reflexivity.
  - apply keeps_log. apply stepwise_one. apply step_note. reflexivity.
Qed.

(** *** What the shape gives *)

Lemma subjects_app evs1 evs2 :
  subjects (evs1 ++ evs2) = subjects evs1 ++ subjects evs2.
Proof.
  induction evs1 as [|ev evs1 IH]; simpl; auto.
  destruct ev; simpl; rewrite IH; reflexivity.
Qed.

Lemma guarded_app evs1 evs2 :
  guarded evs1 -> guarded evs2 -> guarded (evs1 ++ evs2).
Proof.
  intros H1 H2 pre ev post Heq Hcall.
  apply app_eq_app in Heq as [l [[-> Hl] | [-> Hl]]].
  - destruct l as [|x l]; simpl in Hl.
    + subst evs2. destruct (H2 [] ev post eq_refl Hcall) as (pre' & slept & Hnil).
      destruct pre'; discriminate.
    + injection Hl as <- ->.
      apply (H1 pre ev l); [reflexivity | exact Hcall].
  - destruct (H2 l ev post Hl Hcall) as (pre' & slept & ->).
    exists (evs1 ++ pre'), slept. rewrite app_assoc. reflexivity.
Qed.

Lemma step_guarded names tweet_types collection piece :
  step names tweet_types collection piece -> guarded piece.
Proof.
  intros Hp pre ev post Heq Hcall.
  destruct Hp as [slept name failed _
                 | slept user tweet_type count cursor failed _
                 | slept1 slept2 tweet_type data failed _ _
                 | note Hnote].
  - destruct pre as [|x [|y pre]]; simpl in Heq.
    + injection Heq as <- _. discriminate.
    + injection Heq as <- _ _. exists [], slept. reflexivity.
    + injection Heq as _ _ Heq. destruct pre; discriminate.
  - destruct pre as [|x [|y pre]]; simpl in Heq.
    + injection Heq as <- _. discriminate.
    + injection Heq as <- _ _. exists [], slept. reflexivity.
    + injection Heq as _ _ Heq. destruct pre; discriminate.
  - destruct pre as [|x [|y [|z pre]]]; simpl in Heq.
    + injection Heq as <- _. discriminate.
    + injection Heq as _ <- _. discriminate.
    + injection Heq as <- <- _ _.
      exists [Acquire (RateLimiter.Returned slept1)], slept2. reflexivity.
    + injection Heq as _ _ _ Heq. destruct pre; discriminate.
  - destruct pre as [|x pre]; simpl in Heq.
    + injection Heq as <- _. destruct note; discriminate.
    + injection Heq as _ Heq. destruct pre; discriminate.
Qed.

Lemma stepwise_guarded names tweet_types collection evs :
  stepwise names tweet_types collection evs -> guarded evs.
Proof.
  intros H. induction H as [|piece evs Hp _ IH].
  - intros pre ev post Heq _. destruct pre; discriminate.
  - apply guarded_app; [eapply step_guarded; exact Hp | exact IH].
Qed.

Lemma stepwise_balanced names tweet_types collection evs :
  stepwise names tweet_types collection evs ->
  acquisitions evs =
    Z.of_nat (List.length (subjects evs))
    + Z.of_nat (List.length (page_requests evs))
    + 2 * Z.of_nat (List.length (upserts evs)).
Proof.
  intros H. induction H as [|piece evs Hp _ IH]; [reflexivity|].
  rewrite acquisitions_app, subjects_app, page_requests_app, upserts_app,
    !length_app, !Nat2Z.inj_add, IH.
  destruct Hp as [? ? ? _ | ? ? ? ? ? ? _ | ? ? ? ? ? _ _ | note Hnote];
    [ | | | destruct note; try discriminate ];
    unfold acquisitions;
    cbn [filter is_acquire List.length subjects page_requests upserts]; lia.
Qed.

Lemma stepwise_stored names tweet_types collection evs :
  stepwise names tweet_types collection evs ->
  Forall (stored_as collection tweet_types) evs.
Proof.
  intros H. induction H as [|piece evs Hp _ IH]; [constructor|].
  apply Forall_app. split; [|exact IH].
  destruct Hp as [? ? ? _ | ? ? ? ? ? ? _ | ? ? ty data ? Hin Hty | note Hnote].
  - repeat constructor.
  - repeat constructor.
  - repeat constructor. simpl. eauto.
  - constructor; [|constructor]. destruct note; try discriminate; exact I.
Qed.

Lemma stepwise_subjects names tweet_types collection evs :
  stepwise names tweet_types collection evs ->
  Forall (fun name => In name names) (subjects evs).
Proof.
  intros H. induction H as [|piece evs Hp _ IH]; [constructor|].
  rewrite subjects_app. apply Forall_app. split; [|exact IH].
  destruct Hp as [? ? ? Hin | ? ? ? ? ? ? _ | ? ? ? ? ? _ _ | note Hnote];
    simpl; repeat constructor; auto.
  destruct note; try discriminate; constructor.
Qed.

End WholeRuns.

(** * What every run of the scraper guarantees *)

Section ScraperGuarantees.
Context {Env : Type} `{C : Collaborators Env}.

Lemma keeps_categories names tweet_types screen_name max_tweets_per_type
    collection_name user :
  keeps (stepwise names tweet_types collection_name)
    (bind (log (LogFetching screen_name))
       (fun _ => for_each tweet_types
                   (fetch_category screen_name max_tweets_per_type
                      collection_name user))).
Proof.
  apply keeps_bind; [apply stepwise_app | |].
  - apply keeps_log. apply stepwise_one. apply step_note. reflexivity.
  - intros _. apply keeps_for_each; [apply stepwise_nil | apply stepwise_app |].
    intros tweet_type Hin. apply keeps_fetch_category. exact Hin.
Qed.

(** With a positive limit, [fetch_user_tweets] resolves its subject, and no
    other, whatever happens next. *)
Lemma fetch_user_tweets_subject screen_name tweet_types max_tweets_per_type
    collection_name (s : Scraper Env) :
  1 <= limit s ->
  subjects (snd (fetch_user_tweets screen_name tweet_types max_tweets_per_type
                   collection_name s)) = [screen_name].
Proof.
  intros HL. destruct (wait_if_needed_ok s HL) as (slept & Hw & Hl).
  assert (HL1 : forall e' : Env,
             1 <= limit (mkScraper e' (rate_limiter (after_wait s)))).
  { intros e'. unfold limit in *. cbn [rate_limiter]. lia. }
  unfold fetch_user_tweets, try_except.
  destruct (bind wait_if_needed _ s) as [[r1 s1] evs1] eqn:E1.
  unfold bind at 1 in E1. rewrite Hw in E1. unfold bind at 1, collaborate in E1.
  destruct (get_user_by_screen_name screen_name (env (after_wait s)))
    as [[e|user] e'].
  - inversion E1; subst. reflexivity.
  - change (match tweet_types with
            | Some given => given
            | None => default_tweet_types
            end) with (requested tweet_types) in E1.
    match type of E1 with
    | context [bind (log ?l) ?k ?st] =>
        pose proof (keeps_categories [] (requested tweet_types) screen_name
                      max_tweets_per_type collection_name user st (HL1 e'))
          as [Hshape _];
        destruct (bind (log l) k st) as [[r2 s2] evs2]
    end.
    apply stepwise_subjects in Hshape. cbn [snd] in Hshape.
    assert (Hnone : subjects evs2 = []).
    { destruct (subjects evs2) as [|x xs]; [reflexivity|].
      apply Forall_inv in Hshape. destruct Hshape. }
    inversion E1; subst.
    destruct r1 as [a|e|]; cbn [snd]; simpl; rewrite ?subjects_app, Hnone;
      reflexivity.
Qed.

Lemma failed_calls_app evs1 evs2 :
  failed_calls (evs1 ++ evs2) = failed_calls evs1 ++ failed_calls evs2.
Proof. apply filter_app. Qed.

Lemma failed_calls_of_raise (evs : list event) pre ev post e :
  evs = pre ++ ev :: post -> failure ev = Some e -> failed_calls evs <> [].
Proof.
  intros -> Hf. rewrite failed_calls_app. unfold failed_calls at 2. simpl.
  rewrite Hf. intros H. apply app_eq_nil in H as [_ H]. discriminate.
Qed.

(** The loop of [main]: the subjects resolved are the first ones of the
    list, all of them unless a call failed. *)
Lemma batch_subjects tweet_types max_tweets_per_type collection_name names :
  forall (s : Scraper Env), 1 <= limit s ->
  let run := for_each names (fun screen_name =>
               fetch_user_tweets screen_name tweet_types max_tweets_per_type
                 collection_name) s in
  exists rest,
    names = subjects (snd run) ++ rest /\
    (failed_calls (snd run) = [] -> rest = []).
Proof.
  induction names as [|name more IH]; intros s HL; simpl.
  - exists []. auto.
  - pose proof (fetch_user_tweets_subject name tweet_types max_tweets_per_type
                  collection_name s HL) as Hone.
    destruct (bind _ _ s) as [[r s'] evs] eqn:E. cbn [snd].
    bind_cases E as u Hfirst Hrest.
    + rewrite Hfirst in Hone. cbn [snd] in Hone.
      pose proof (fetch_user_tweets_shape _ _ _ _ _ _ _ _ Hfirst) as [Hl _].
      assert (HL1 : 1 <= limit s1) by lia.
      destruct (IH s1 HL1) as (rest & Hnames & Hall).
      rewrite Hrest in Hnames, Hall. cbn [snd] in Hnames, Hall.
      exists rest. rewrite subjects_app, Hone. split.
      * simpl. f_equal. exact Hnames.
      * rewrite failed_calls_app. intros H. apply app_eq_nil in H as [_ H]. auto.
    + rewrite Hfirst in Hone. cbn [snd] in Hone.
      exists more. rewrite Hone. split; [reflexivity|].
      apply fetch_user_tweets_shape in Hfirst as [_ (evs0 & ev & Hevs & _ & Hf)].
      intros H. exfalso. eapply failed_calls_of_raise; eauto.
    + apply fetch_user_tweets_shape in Hfirst as [_ []].
Qed.

(** X6. Every call to the remote client and every upsert made by
    [fetch_user_tweets] comes directly after a limiter acquisition that
    returned; the limit is assumed positive. *)
Theorem every_call_is_rate_limited screen_name tweet_types
    max_tweets_per_type collection_name (s : Scraper Env) :
  1 <= limit s ->
  guarded (snd (fetch_user_tweets screen_name tweet_types max_tweets_per_type
                  collection_name s)).
Proof.
  intros HL.
  destruct (keeps_fetch_user_tweets [screen_name] screen_name tweet_types
              max_tweets_per_type collection_name (or_introl eq_refl) s HL)
    as [Hshape _].
  eapply stepwise_guarded. exact Hshape.
Qed.

(** X8. Every upsert made by [fetch_user_tweets] goes to the collection it
    was given, is keyed by the ['id'] of the record written, and writes a
    record whose ['tweet_type'] is one of the categories requested; the
    limit is assumed positive. *)
Theorem stored_records_carry_category screen_name tweet_types
    max_tweets_per_type collection_name (s : Scraper Env) :
  1 <= limit s ->
  Forall (stored_as collection_name (requested tweet_types))
    (snd (fetch_user_tweets screen_name tweet_types max_tweets_per_type
            collection_name s)).
Proof.
  intros HL.
  destruct (keeps_fetch_user_tweets [screen_name] screen_name tweet_types
              max_tweets_per_type collection_name (or_introl eq_refl) s HL)
    as [Hshape _].
  eapply stepwise_stored. exact Hshape.
Qed.

(** X9. [main] lets no [Exception] out and always closes the scraper:
    whenever the collaborators and the limiter fail only with instances of
    [Exception] (the failures [exn] stands for, those that the two
    [except Exception] clauses catch), [main] returns normally and the last
    thing it does is to call [close]. *)
Theorem main_always_closes (SCREEN_NAMES : list string) (s : Scraper Env) :
  fst (fst (main_with SCREEN_NAMES s)) = Ok tt /\
  exists evs, snd (main_with SCREEN_NAMES s) = evs ++ [Close].
Proof.
  unfold main_with, try_finally, try_except.
  set (batch := for_each SCREEN_NAMES _).
  destruct (bind (load_cookies "cookies.json") (fun _ => batch) s)
    as [[r1 s1] evs1] eqn:Eb.
  destruct r1 as [[]|e|]; simpl; eauto.
  exfalso. bind_cases Eb as u Hload Hbatch; try discriminate.
  - apply batch_shape in Hbatch. exact Hbatch.
  - unfold load_cookies, collaborate in Hload.
    destruct (load_cookies_file _ _) as [[x|x] e']; discriminate.
Qed.

(** X10. [main] resolves the subjects in the order of [SCREEN_NAMES], each
    once, stopping at most early: the subjects resolved are an initial
    segment of the list, and the whole list when no call failed; the limit
    is assumed positive. *)
Theorem main_resolves_in_order (SCREEN_NAMES : list string) (s : Scraper Env) :
  1 <= limit s ->
  exists rest,
    SCREEN_NAMES = subjects (snd (main_with SCREEN_NAMES s)) ++ rest /\
    (failed_calls (snd (main_with SCREEN_NAMES s)) = [] -> rest = []).
Proof.
  intros HL. unfold main_with, try_finally, try_except.
  destruct (bind (load_cookies "cookies.json") _ s) as [[r1 s1] evs1] eqn:Eb.
  assert (Hinner : exists rest,
             SCREEN_NAMES = subjects evs1 ++ rest /\
             (failed_calls evs1 = [] -> rest = [])).
  { bind_cases Eb as u Hload Hbatch.
    - pose proof (orderly_load_cookies _ _ _ _ _ Hload) as [Hl _].
      assert (HL0 : 1 <= limit s0) by lia.
      destruct (batch_subjects (Some ["Tweets"; "Replies"; "Media"; "Likes"]%string)
                  5 "tweets"%string SCREEN_NAMES s0 HL0) as (rest & Hnames & Hall).
      cbn zeta in Hnames, Hall. rewrite Hbatch in Hnames, Hall.
      cbn [snd] in Hnames, Hall.
      unfold load_cookies in Hload.
      apply collaborate_trace in Hload
        as [(a & _ & _ & ->) | (e' & _ & [=] & _)].
      exists rest. rewrite subjects_app, failed_calls_app. simpl. auto.
    - unfold load_cookies in Hload.
      apply collaborate_trace in Hload
        as [(a & _ & [=] & _) | (e' & _ & _ & ->)].
      exists SCREEN_NAMES. split; [reflexivity|]. discriminate.
    - unfold load_cookies in Hload.
      apply collaborate_trace in Hload
        as [(a & _ & [=] & _) | (e' & _ & [=] & _)]. }
  destruct Hinner as (rest & Hnames & Hall). exists rest.
  destruct r1 as [a|e|]; simpl; rewrite ?subjects_app, ?failed_calls_app;
    simpl; rewrite ?app_nil_r; (split; [exact Hnames|]); intros H;
    repeat (apply app_eq_nil in H as [H _]); auto.
Qed.

(** X11. Empty-page termination: an iteration of the category loop in which
    the source returns a page without items ends the loop normally, whatever
    is left of the budget; the trace of the loop is the acquisition and the
    page request, with no upsert and no log line.  The limit is assumed
    positive. *)
Theorem empty_page_ends_category screen_name max_tweets_per_type
    collection_name user tweet_type fuel n cursor (s : Scraper Env) page e' :
  1 <= limit s ->
  n < max_tweets_per_type ->
  get_user_tweets (user_id user) tweet_type
    (Z.min 20 (max_tweets_per_type - n)) cursor (env (after_wait s))
    = (inr page, e') ->
  items page = [] ->
  let run := while_fetching screen_name max_tweets_per_type collection_name
               user tweet_type (S fuel) n cursor s in
  fst (fst run) = Ok tt /\
  exists slept,
    snd run = [Acquire (RateLimiter.Returned slept);
               GetUserTweets (user_id user) tweet_type
                 (Z.min 20 (max_tweets_per_type - n)) cursor None].
Proof.
  intros HL Hlt Hpage Hitems run.
  destruct (wait_if_needed_ok s HL) as (slept & Hw & _).
  assert (Hbatch : fetch_batch screen_name max_tweets_per_type collection_name
                     user tweet_type n cursor s
                   = (Ok None, mkScraper e' (rate_limiter (after_wait s)),
                      [Acquire (RateLimiter.Returned slept)] ++
                      [GetUserTweets (user_id user) tweet_type
                         (Z.min 20 (max_tweets_per_type - n)) cursor None] ++ [])).
  { unfold fetch_batch. eapply bind_ok; [exact Hw|].
    eapply bind_ok.
    - unfold collaborate. rewrite Hpage. reflexivity.
    - rewrite Hitems. reflexivity. }
  unfold run. cbn [while_fetching]. apply Z.ltb_lt in Hlt. rewrite Hlt.
  erewrite bind_ok; [|exact Hbatch|reflexivity].
  simpl. eauto.
Qed.

(** X12. Whatever the source, the store and the limiter do, the category
    loop requests at most [max_tweets_per_type] pages, and none when the
    budget is zero or negative. *)
Theorem page_requests_within_budget screen_name max_tweets_per_type
    collection_name user tweet_type (s : Scraper Env) :
  (List.length
     (page_requests
        (snd (fetch_category screen_name max_tweets_per_type collection_name
                user tweet_type s)))
   <= Z.to_nat max_tweets_per_type)%nat.
Proof.
  unfold fetch_category.
  destruct (while_fetching_bounds screen_name max_tweets_per_type
              collection_name user tweet_type
              (Z.to_nat max_tweets_per_type) 0 None s) as [Hp _].
  replace (max_tweets_per_type - 0) with max_tweets_per_type in Hp by lia.
  exact Hp.
Qed.

(** X13. When the source never returns more items than it is asked for,
    the category loop hands at most [max_tweets_per_type] items to the
    store, whether it ends normally or on an error. *)
Theorem upserts_within_budget screen_name max_tweets_per_type
    collection_name user tweet_type (s : Scraper Env) :
  source_honours_size ->
  Z.of_nat
    (List.length
       (upserts
          (snd (fetch_category screen_name max_tweets_per_type collection_name
                  user tweet_type s))))
  <= Z.max 0 max_tweets_per_type.
Proof.
  intros Hh. unfold fetch_category.
  destruct (while_fetching_bounds screen_name max_tweets_per_type
              collection_name user tweet_type
              (Z.to_nat max_tweets_per_type) 0 None s) as [_ Hu].
  specialize (Hu Hh).
  replace (max_tweets_per_type - 0) with max_tweets_per_type in Hu by lia.
  exact Hu.
Qed.

End ScraperGuarantees.

(** * The guarantees in the scripted world *)

Section ScriptedGuarantees.
Import Scripted.
Local Open Scope string_scope.

Lemma scripted_source_honours_size page_cap bad :
  source_honours_size (C := world page_cap bad).
Proof.
  intros user tweet_type count cursor e page e'. simpl.
  destruct (unavailable bad user tweet_type); [discriminate|].
  intros [= <- _]. simpl. unfold tweets_from.
  rewrite length_map, length_seq. lia.
Qed.

Lemma every_call_is_rate_limited_witness :
  guarded (snd (fetch_user_tweets (C := world 20 (Some (1, "Replies")))
                  "A" None 5 "tweets" (TwitterScraper_init 0))).
Proof.
  apply (every_call_is_rate_limited (C := world 20 (Some (1, "Replies")))
           "A" None 5 "tweets" (TwitterScraper_init 0)).
  vm_compute. discriminate.
Defined.

Lemma stored_records_carry_category_witness :
  Forall (stored_as "tweets" (requested (Some ["Tweets"; "Likes"])))
    (snd (fetch_user_tweets (C := world 2 None)
            "A" (Some ["Tweets"; "Likes"]) 3 "tweets" (TwitterScraper_init 0))).
Proof.
  apply (stored_records_carry_category (C := world 2 None)
           "A" (Some ["Tweets"; "Likes"]) 3 "tweets" (TwitterScraper_init 0)).
  vm_compute. discriminate.
Defined.

Lemma main_resolves_in_order_witness :
  exists rest,
    ["A"; "B"] =
      (subjects (snd (main_with (C := world 20 (Some (1, "Replies"))) ["A"; "B"]
                        (TwitterScraper_init 0))) ++ rest)%list /\
    (failed_calls (snd (main_with (C := world 20 (Some (1, "Replies")))
                          ["A"; "B"] (TwitterScraper_init 0))) = [] ->
     rest = []).
Proof.
  apply (main_resolves_in_order (C := world 20 (Some (1, "Replies")))
           ["A"; "B"] (TwitterScraper_init 0)).
  vm_compute. discriminate.
Defined.

Lemma empty_page_ends_category_witness :
  let run := while_fetching (C := last_page_world 0) "A" 45 "tweets" alice
               "Tweets" 1 0 None (TwitterScraper_init 0) in
  fst (fst run) = Ok tt /\
  exists slept,
    snd run = [Acquire (RateLimiter.Returned slept);
               GetUserTweets (user_id alice) "Tweets" (Z.min 20 (45 - 0)) None None].
Proof.
  apply (empty_page_ends_category (C := last_page_world 0) "A" 45 "tweets"
           alice "Tweets" 0%nat 0 None (TwitterScraper_init 0)
           (mkPage (tweets_from (100 * 0) 0) None) (0 + 1)).
  - vm_compute. discriminate.
  - lia.
  - reflexivity.
  - reflexivity.
Defined.

Lemma upserts_within_budget_witness :
  Z.of_nat
    (List.length
       (upserts
          (snd (fetch_category (C := world 2 None) "A" 5 "tweets" alice
                  "Tweets" (TwitterScraper_init 0)))))
  <= Z.max 0 5.
Proof.
  apply (upserts_within_budget (C := world 2 None) "A" 5 "tweets" alice
           "Tweets" (TwitterScraper_init 0)).
  exact (scripted_source_honours_size 2 None).
Defined.

End ScriptedGuarantees.

(** * The limiter behind the acquisitions *)

Section ReplayFacts.
Context {Env : Type} `{C : Collaborators Env}.

Lemma replay_app evs1 : forall (s : Scraper Env) evs2,
  replay s (evs1 ++ evs2) = replay (replay s evs1) evs2.
Proof. induction evs1 as [|ev evs1 IH]; intros s evs2; simpl; auto. Qed.

Lemma readings_app evs1 : forall (s : Scraper Env) evs2,
  readings s (evs1 ++ evs2) = readings s evs1 ++ readings (replay s evs1) evs2.
Proof.
  induction evs1 as [|ev evs1 IH]; intros s evs2; simpl; auto.
  rewrite IH, app_assoc. reflexivity.
Qed.

Lemma faithful_app evs1 : forall (s : Scraper Env) evs2,
  faithful s evs1 -> faithful (replay s evs1) evs2 -> faithful s (evs1 ++ evs2).
Proof.
  induction evs1 as [|ev evs1 IH]; intros s evs2 H1 H2; simpl in *; auto.
  destruct H1 as [Hev H1]. split; auto.
Qed.

Lemma acquired_length evs :
  acquisitions evs = Z.of_nat (List.length (acquired evs)).
Proof.
  unfold acquisitions. f_equal.
  induction evs as [|ev evs IH]; simpl; auto.
  destruct ev; simpl; auto.
Qed.

Lemma readings_length evs : forall s : Scraper Env,
  List.length (readings s evs) = List.length (acquired evs).
Proof.
  induction evs as [|ev evs IH]; intros s; simpl; auto.
  rewrite length_app, IH. destruct ev; reflexivity.
Qed.

Lemma after_wait_limiter (s : Scraper Env) :
  rate_limiter (after_wait s)
    = fst (RateLimiter.wait_if_needed (rate_limiter s) (time_time (env s))).
Proof.
  unfold after_wait, wait_if_needed.
  destruct (RateLimiter.wait_if_needed _ _) as [limiter' [[d|]|]]; reflexivity.
Qed.

Lemma advance_limiter (s : Scraper Env) ev :
  is_acquire ev = false -> rate_limiter (advance s ev) = rate_limiter s.
Proof. destruct ev; simpl; intros H; try reflexivity; discriminate. Qed.

(** The limiter at the end of a trace is the limiter at its start after one
    call of [RateLimiter.wait_if_needed] per acquisition. *)
Lemma replay_limiter evs : forall s : Scraper Env,
  rate_limiter (replay s evs) = acquire_all (rate_limiter s) (readings s evs).
Proof.
  induction evs as [|ev evs IH]; intros s; simpl; [reflexivity|].
  rewrite IH. destruct (is_acquire ev) eqn:Hev.
  - destruct ev; try discriminate. simpl. rewrite after_wait_limiter.
    reflexivity.
  - rewrite advance_limiter by exact Hev. reflexivity.
Qed.

Lemma faithful_outcomes evs : forall s : Scraper Env,
  faithful s evs ->
  acquired evs = outcomes_all (rate_limiter s) (readings s evs).
Proof.
  induction evs as [|ev evs IH]; intros s Hf; simpl; [reflexivity|].
  destruct Hf as [Hev Hf]. specialize (IH _ Hf).
  destruct ev; simpl;
    try (rewrite IH, advance_limiter by reflexivity; reflexivity).
  rewrite IH. simpl. rewrite after_wait_limiter, <- Hev. reflexivity.
Qed.

(** *** The computations of the scraper *)

Lemma replays_ret {A} (a : A) : replays (ret a : M Env A).
Proof. intros s. simpl. auto. Qed.

Lemma replays_raise {A} (e : exn) : replays (raise e : M Env A).
Proof. intros s. simpl. auto. Qed.

Lemma replays_out_of_fuel {A} : replays (out_of_fuel : M Env A).
Proof. intros s. simpl. auto. Qed.

Lemma replays_get_env : replays (get_env : M Env Env).
Proof. intros s. simpl. auto. Qed.

Lemma replays_log (ev : event) :
  (forall s : Scraper Env, advance s ev = s /\ faithful s [ev]) ->
  replays (log ev : M Env unit).
Proof.
  intros Hev s. destruct (Hev s) as [Ha Hf]. cbn [log fst snd replay].
  rewrite Ha. auto.
Qed.

Lemma replays_wait_if_needed : replays (wait_if_needed : M Env unit).
Proof.
  intros s.
  assert (H : exists o,
             snd (wait_if_needed s) = [Acquire o] /\
             o = snd (RateLimiter.wait_if_needed (rate_limiter s)
                        (time_time (env s)))).
  { unfold wait_if_needed.
    destruct (RateLimiter.wait_if_needed _ _) as [limiter' [[d|]|]];
      simpl; eauto. }
  destruct H as (o & Hevs & Ho). rewrite Hevs. simpl. auto.
Qed.

Lemma replays_collaborate {A} (op : Env -> (exn + A) * Env)
    (record : option exn -> event) :
  (forall (s : Scraper Env) failed,
      advance s (record failed) = mkScraper (snd (op (env s))) (rate_limiter s)
      /\ faithful s [record failed]) ->
  replays (collaborate op record).
Proof.
  intros Hrec s. unfold collaborate.
  pose proof (Hrec s) as Hs.
  destruct (op (env s)) as [[e|a] e']; cbn [fst snd replay] in *.
  - destruct (Hs (Some e)) as [-> Hf]. auto.
  - destruct (Hs None) as [-> Hf]. auto.
Qed.

Lemma replays_bind {A B} (m : M Env A) (f : A -> M Env B) :
  replays m -> (forall a, replays (f a)) -> replays (bind m f).
Proof.
  intros Hm Hf s. unfold bind. specialize (Hm s).
  destruct (m s) as [[r1 s1] evs1]. cbn [fst snd] in Hm.
  destruct Hm as [Hs1 Hf1].
  destruct r1 as [a|e|]; cbn [fst snd]; auto.
  specialize (Hf a s1). destruct (f a s1) as [[r2 s2] evs2].
  cbn [fst snd] in *. destruct Hf as [Hs2 Hf2]. subst s1.
  rewrite replay_app. split; [exact Hs2 | apply faithful_app; assumption].
Qed.

Lemma replays_try_except {A} (m : M Env A) (handler : exn -> M Env A) :
  replays m -> (forall e, replays (handler e)) -> replays (try_except m handler).
Proof.
  intros Hm Hh s. unfold try_except. specialize (Hm s).
  destruct (m s) as [[r1 s1] evs1]. cbn [fst snd] in Hm.
  destruct Hm as [Hs1 Hf1].
  destruct r1 as [a|e|]; cbn [fst snd]; auto.
  specialize (Hh e s1). destruct (handler e s1) as [[r2 s2] evs2].
  cbn [fst snd] in *. destruct Hh as [Hs2 Hf2]. subst s1.
  rewrite replay_app. split; [exact Hs2 | apply faithful_app; assumption].
Qed.

Lemma replays_for_each {A} (xs : list A) (body : A -> M Env unit) :
  (forall x, replays (body x)) -> replays (for_each xs body).
Proof.
  intros Hbody. induction xs as [|x rest IH]; simpl.
  - apply replays_ret.
  - apply replays_bind; auto.
Qed.

Lemma replays_fetch_tweet_details tweet :
  replays (fetch_tweet_details tweet : M Env TweetData).
Proof.
  unfold fetch_tweet_details.
  apply replays_bind; [apply replays_wait_if_needed|]. intros _.
  apply replays_bind; [apply replays_get_env|]. intros e. apply replays_ret.
Qed.

Section OneCategoryReplayed.
Variable screen_name : string.
Variable max_tweets_per_type : Z.
Variable collection_name : string.
Variable user : User.
Variable tweet_type : string.

Lemma replays_process_tweet tweet :
  replays (process_tweet collection_name tweet_type tweet : M Env unit).
Proof.
  unfold process_tweet.
  apply replays_bind; [apply replays_fetch_tweet_details|]. intros data.
  apply replays_bind; [apply replays_wait_if_needed|]. intros _.
  apply replays_collaborate. intros s failed. simpl. auto.
Qed.

Lemma replays_for_tweets tweets : forall n,
  replays (for_tweets collection_name tweet_type tweets n : M Env Z).
Proof.
  induction tweets as [|tweet rest IH]; intros n; simpl.
  - apply replays_ret.
  - apply replays_bind; [apply replays_process_tweet | auto].
Qed.

Lemma replays_fetch_batch n cursor :
  replays (fetch_batch screen_name max_tweets_per_type collection_name
             user tweet_type n cursor : M Env _).
Proof.
  unfold fetch_batch.
  apply replays_bind; [apply replays_wait_if_needed|]. intros _.
  apply replays_bind.
  - apply replays_collaborate. intros s failed. simpl. auto.
  - intros tweets. destruct (items tweets) as [|tweet rest].
    + apply replays_ret.
    + apply replays_bind; [apply replays_for_tweets|]. intros n'.
      apply replays_bind.
      * apply replays_log. intros s. simpl. auto.
      * intros _. destruct (next_cursor tweets); apply replays_ret.
Qed.

Lemma replays_while_fetching fuel : forall n cursor,
  replays (while_fetching screen_name max_tweets_per_type collection_name
             user tweet_type fuel n cursor : M Env unit).
Proof.
  induction fuel as [|fuel IH]; intros n cursor; simpl;
    destruct (n <? max_tweets_per_type);
    try apply replays_ret; try apply replays_out_of_fuel.
  apply replays_bind; [apply replays_fetch_batch|].
  intros [[n' cursor']|]; [apply IH | apply replays_ret].
Qed.

End OneCategoryReplayed.

Lemma replays_fetch_user_tweets screen_name tweet_types max_tweets_per_type
    collection_name :
  replays (fetch_user_tweets screen_name tweet_types max_tweets_per_type
             collection_name : M Env unit).
Proof.
  unfold fetch_user_tweets. apply replays_try_except.
  - apply replays_bind; [apply replays_wait_if_needed|]. intros _.
    apply replays_bind.
    + apply replays_collaborate. intros s failed. simpl. auto.
    + intros user. apply replays_bind.
      * apply replays_log. intros s. simpl. auto.
      * intros _. apply replays_for_each. intros tweet_type.
        unfold fetch_category. apply replays_while_fetching.
  - intros e. apply replays_bind.
    + apply replays_log. intros s. simpl. auto.
    + intros _. apply replays_raise.
Qed.

(** What a computation that [replays] does to the limiter. *)
Lemma replays_limiter {A} (m : M Env A) (s : Scraper Env) :
  replays m ->
  rate_limiter (snd (fst (m s)))
    = acquire_all (rate_limiter s) (readings s (snd (m s))) /\
  acquired (snd (m s))
    = outcomes_all (rate_limiter s) (readings s (snd (m s))) /\
  Z.of_nat (List.length (readings s (snd (m s)))) = acquisitions (snd (m s)).
Proof.
  intros Hm. destruct (Hm s) as [Hs Hf]. split; [|split].
  - rewrite Hs at 1. apply replay_limiter.
  - apply faithful_outcomes. exact Hf.
  - rewrite readings_length, acquired_length. reflexivity.
Qed.

(** C10. Processing one fetched item calls [self.rate_limiter] exactly
    twice, both times before the upsert, whether the upsert then succeeds or
    not: once in [fetch_tweet_details], whose whole trace is that
    acquisition, and once just before [update_one].  The limiter after the
    item is the limiter before it after two calls of
    [RateLimiter.wait_if_needed], which read the clock on entry of
    [fetch_tweet_details] and after it.  An iteration that fetches a page of
    n items and completes makes 2n + 1 such calls: its trace holds 2n + 1
    acquisitions, and the limiter at its end is the limiter at its start
    after 2n + 1 calls of [RateLimiter.wait_if_needed], one per acquisition
    of the trace, with the outcomes the trace records.  The limit is assumed
    positive (it is 300 in [TwitterScraper_init]). *)
Theorem item_costs_two_limiter_calls screen_name max_tweets_per_type
    collection_name user tweet_type tweet n cursor (s : Scraper Env) :
  1 <= limit s ->
  (exists slept1 slept2 data failed,
      let now1 := time_time (env s) in
      let now2 := time_time (env (after_wait s)) in
      outcomes_all (rate_limiter s) [now1; now2] =
        [RateLimiter.Returned slept1; RateLimiter.Returned slept2] /\
      snd (fetch_tweet_details tweet s) =
        [Acquire (RateLimiter.Returned slept1)] /\
      rate_limiter (snd (fst (fetch_tweet_details tweet s))) =
        acquire_all (rate_limiter s) [now1] /\
      snd (process_tweet collection_name tweet_type tweet s) =
        [Acquire (RateLimiter.Returned slept1);
         Acquire (RateLimiter.Returned slept2);
         UpdateOne collection_name (tweet_id tweet) data failed] /\
      rate_limiter (snd (fst (process_tweet collection_name tweet_type tweet s))) =
        acquire_all (rate_limiter s) [now1; now2]) /\
  (forall page e' next s' evs,
      get_user_tweets (user_id user) tweet_type
        (Z.min 20 (max_tweets_per_type - n)) cursor (env (after_wait s))
        = (inr page, e') ->
      fetch_batch screen_name max_tweets_per_type collection_name user
        tweet_type n cursor s = (Ok next, s', evs) ->
      acquisitions evs = 2 * Z.of_nat (List.length (items page)) + 1 /\
      Z.of_nat (List.length (readings s evs)) =
        2 * Z.of_nat (List.length (items page)) + 1 /\
      s' = replay s evs /\
      rate_limiter s' = acquire_all (rate_limiter s) (readings s evs) /\
      acquired evs = outcomes_all (rate_limiter s) (readings s evs)).
Proof.
  intros HL. split.
  - destruct (wait_if_needed_ok s HL) as (o1 & Hw1 & Hl1).
    assert (HL1 : 1 <= limit (after_wait s)) by lia.
    destruct (wait_if_needed_ok _ HL1) as (o2 & Hw2 & Hl2).
    pose proof (replays_limiter (fetch_tweet_details tweet) s
                  (replays_fetch_tweet_details tweet)) as (Hd1 & Hd2 & _).
    pose proof (replays_limiter
                  (process_tweet collection_name tweet_type tweet) s
                  (replays_process_tweet collection_name tweet_type tweet))
      as (Hp1 & Hp2 & _).
    revert Hd1 Hd2 Hp1 Hp2.
    unfold process_tweet, fetch_tweet_details, bind, get_env, ret.
    rewrite Hw1, Hw2. unfold collaborate.
    match goal with
    | |- context [update_one ?c ?i ?d ?e] =>
        destruct (update_one c i d e) as [[e1|u1] e1']
    end; cbn [fst snd app readings is_acquire advance acquired];
      intros Hd1 Hd2 Hp1 Hp2; eexists o1, o2, _, _;
      (split; [symmetry; exact Hp2 |
       split; [reflexivity |
       split; [exact Hd1 |
       split; [reflexivity | exact Hp1]]]]).
  - intros page e' next s' evs Hpage H.
    pose proof (replays_fetch_batch screen_name max_tweets_per_type
                  collection_name user tweet_type n cursor s) as [Hs Hf].
    pose proof (replays_limiter _ s
                  (replays_fetch_batch screen_name max_tweets_per_type
                     collection_name user tweet_type n cursor))
      as (Hr1 & Hr2 & Hr3).
    rewrite H in Hs, Hf, Hr1, Hr2, Hr3. cbn [fst snd] in Hs, Hf, Hr1, Hr2, Hr3.
    assert (Hcount : acquisitions evs
                     = 2 * Z.of_nat (List.length (items page)) + 1).
    { unfold fetch_batch in H.
      bind_cases H as u Hwait Hfetch; try discriminate.
      apply wait_if_needed_trace in Hwait as [-> [o ->]].
      bind_cases Hfetch as tweets Hget Hbody; try discriminate.
      apply collaborate_trace in Hget
        as [(a & Hop & [= <-] & ->) | (e & _ & [=] & _)].
      rewrite Hpage in Hop. injection Hop as <- _.
      destruct (items page) as [|tweet0 rest] eqn:Hitems.
      + unfold ret in Hbody. inversion Hbody; subst. reflexivity.
      + bind_cases Hbody as n1 Hfor Hlog; try discriminate.
        apply for_tweets_events in Hfor as [_ Hok].
        destruct (Hok n1 eq_refl) as (_ & Ha & _ & _).
        bind_cases Hlog as u1 Hlog1 Hend; try discriminate.
        unfold log in Hlog1. inversion Hlog1; subst.
        rewrite !acquisitions_app, Ha.
        destruct (next_cursor page); unfold ret in Hend; inversion Hend; subst;
          unfold acquisitions; simpl; lia. }
    repeat split; try assumption. rewrite Hr3. exact Hcount.
Qed.

End ReplayFacts.

Section LimiterAccounts.
Context {Env : Type} `{C : Collaborators Env}.

(** X7. Whatever the outcome of [fetch_user_tweets], the calls it makes on
    [self.rate_limiter] are one per user resolved, one per page requested
    and two per item handed to the store: its trace holds that many
    acquisitions, and the limiter at the end is the limiter at the start
    after that many calls of [RateLimiter.wait_if_needed], one per
    acquisition of the trace, each reading the clock at that point of the
    run and having the outcome the trace records.  The limit is assumed
    positive. *)
Theorem acquisitions_account screen_name tweet_types max_tweets_per_type
    collection_name (s : Scraper Env) :
  1 <= limit s ->
  let run := fetch_user_tweets screen_name tweet_types
               max_tweets_per_type collection_name s in
  let evs := snd run in
  let nows := readings s evs in
  acquisitions evs =
    Z.of_nat (List.length (subjects evs))
    + Z.of_nat (List.length (page_requests evs))
    + 2 * Z.of_nat (List.length (upserts evs)) /\
  Z.of_nat (List.length nows) = acquisitions evs /\
  snd (fst run) = replay s evs /\
  rate_limiter (snd (fst run)) = acquire_all (rate_limiter s) nows /\
  acquired evs = outcomes_all (rate_limiter s) nows.
Proof.
  intros HL run evs nows.
  destruct (keeps_fetch_user_tweets [screen_name] screen_name tweet_types
              max_tweets_per_type collection_name (or_introl eq_refl) s HL)
    as [Hshape _].
  pose proof (replays_fetch_user_tweets screen_name tweet_types
                max_tweets_per_type collection_name) as Hrep.
  destruct (replays_limiter _ s Hrep) as (H1 & H2 & H3).
  destruct (Hrep s) as [Hs _].
  split; [eapply stepwise_balanced; exact Hshape|].
  split; [exact H3|]. split; [exact Hs|]. split; [exact H1 | exact H2].
Qed.

End LimiterAccounts.

(** * The defects, run *)

Section Defects.
Import RateLimiter.
Import Scripted.
Local Open Scope string_scope.

(** C1. The limiter bound does not hold of the code.  With limit 2 and
    window 60, three calls that read the clock at 0 are made one after the
    other (the third is suspended for 60 s): each appends 0 to
    [self.requests], so three recorded timestamps lie in the window that
    ends at 0; two further calls entered at 60 return at once, so three
    calls end at instant 60. *)
Theorem stale_time_breaks_limiter_bound :
  sequential (start 2 60 0) [0; 0; 0; 60; 60] = true /\
  requests (limiter (run (start 2 60 0) [0; 0])) = [0; 0] /\
  wait_if_needed (mk 2 60 [0; 0]) 0 = (mk 2 60 [0; 0], Returned (Some 60)) /\
  history (run (start 2 60 0) [0; 0; 0]) = [0; 0; 0] /\
  in_window 60 0 (history (run (start 2 60 0) [0; 0; 0])) = 3 /\
  in_window 60 60 (completions (start 2 60 0) [0; 0; 0; 60; 60]) = 3.
Proof. repeat split; reflexivity. Qed.

(** C4. A page whose [next_cursor] is [None] does not end the category.
    The source answers every request with the same three tweets and a
    [next_cursor] that is [None]; with a budget of 45 the loop ends
    normally after fifteen requests, each made with the cursor [None], and
    has handed the same three tweets to the store fifteen times. *)
Theorem none_token_restarts_category :
  let run := fetch_category (C := restarting_world 3) "A" 45 "tweets" alice
               "Tweets" (TwitterScraper_init 0) in
  fst (fst run) = Ok tt /\
  page_cursors (snd run) = repeat None 15 /\
  page_requests (snd run) =
    [20; 20; 20; 20; 20; 20; 20; 20; 20; 18; 15; 12; 9; 6; 3] /\
  upserts (snd run) = List.concat (repeat [0; 1; 2] 15).
Proof. vm_compute. repeat split; reflexivity. Qed.

Lemma item_costs_two_limiter_calls_witness :
  (exists slept1 slept2 data failed,
      outcomes_all (RateLimiter.init 300 60) [0; 0] =
        [Returned slept1; Returned slept2] /\
      snd (fetch_tweet_details (C := world 20 None) (mkTweet 7 [] None)
             (TwitterScraper_init 0)) = [Acquire (Returned slept1)] /\
      rate_limiter (snd (fst (fetch_tweet_details (C := world 20 None)
                                (mkTweet 7 [] None) (TwitterScraper_init 0)))) =
        acquire_all (RateLimiter.init 300 60) [0] /\
      snd (process_tweet (C := world 20 None) "tweets" "Tweets"
             (mkTweet 7 [] None) (TwitterScraper_init 0)) =
        [Acquire (Returned slept1); Acquire (Returned slept2);
         UpdateOne "tweets" 7 data failed] /\
      rate_limiter (snd (fst (process_tweet (C := world 20 None) "tweets"
                                "Tweets" (mkTweet 7 [] None)
                                (TwitterScraper_init 0)))) =
        acquire_all (RateLimiter.init 300 60) [0; 0]) /\
  (let run := fetch_batch (C := world 20 None) "A" 5 "tweets" alice "Tweets"
                0 None (TwitterScraper_init 0) in
   acquisitions (snd run) = 2 * 5 + 1 /\
   readings (C := world 20 None) (TwitterScraper_init 0) (snd run) =
     [0; 1; 1; 1; 1; 1; 1; 1; 1; 1; 1] /\
   rate_limiter (snd (fst run)) =
     acquire_all (RateLimiter.init 300 60) [0; 1; 1; 1; 1; 1; 1; 1; 1; 1; 1] /\
   requests (rate_limiter (snd (fst run))) = [0; 1; 1; 1; 1; 1; 1; 1; 1; 1; 1]).
Proof.
  destruct (item_costs_two_limiter_calls (C := world 20 None) "A" 5 "tweets"
              alice "Tweets" (mkTweet 7 [] None) 0 None (TwitterScraper_init 0))
    as [Hitem Hpage]; [vm_compute; discriminate|].
  split; [exact Hitem|].
  set (run := fetch_batch (C := world 20 None) "A" 5 "tweets" alice "Tweets"
                0 None (TwitterScraper_init 0)).
  destruct (Hpage (mkPage (tweets_from (100 * 0) 5) (Some (Some "next"))) (0 + 1)
              (Some (5, Some "next")) (snd (fst run)) (snd run))
    as (Hcount & _ & _ & Hlimiter & _).
  - reflexivity.
  - vm_compute. reflexivity.
  - split; [exact Hcount|]. split; [vm_compute; reflexivity|].
    split; [|vm_compute; reflexivity].
    rewrite Hlimiter. vm_compute. reflexivity.
Defined.

Lemma acquisitions_account_witness :
  let run := fetch_user_tweets (C := world 20 (Some (1, "Replies")))
               "A" None 5 "tweets" (TwitterScraper_init 0) in
  let evs := snd run in
  let nows := readings (C := world 20 (Some (1, "Replies")))
                (TwitterScraper_init 0) evs in
  acquisitions evs =
    Z.of_nat (List.length (subjects evs))
    + Z.of_nat (List.length (page_requests evs))
    + 2 * Z.of_nat (List.length (upserts evs)) /\
  Z.of_nat (List.length nows) = acquisitions evs /\
  snd (fst run) = replay (C := world 20 (Some (1, "Replies")))
                    (TwitterScraper_init 0) evs /\
  rate_limiter (snd (fst run)) = acquire_all (RateLimiter.init 300 60) nows /\
  acquired evs = outcomes_all (RateLimiter.init 300 60) nows.
Proof.
  apply (acquisitions_account (C := world 20 (Some (1, "Replies")))
           "A" None 5 "tweets" (TwitterScraper_init 0)).
  vm_compute. discriminate.
Defined.

End Defects.
